(** * EncoderLame: the LAME audio-encoder add-on, embedded in Rocq

    A shallow embedding of [src/EncoderLame.cpp].  The class [CEncoderLame]
    drives three external collaborators: the LAME library (behind the
    [m_encoder] handle), the C library ([calloc], [free], [iconv]) and the
    host, which provides the settings, the log and the output sink
    ([Write], [Seek]).  None of them is part of the add-on, so each is an
    interface here: its operations are class members, and every call the
    add-on makes is recorded, in program order, in a trace of events.  The
    methods of the class are state transformers over a [World]. *)

From Stdlib Require Import ZArith List String Ascii Bool Lia DecimalString.
Import ListNotations.
Open Scope Z_scope.

(** ** C integer types *)

Module CInt.

Definition SIZE_MOD : Z := 2 ^ 64.
Definition SSIZE_MAX : Z := 2 ^ 63 - 1.

(** [size_t]: arithmetic modulo 2^64. *)
Definition size_t (z : Z) : Z := z mod SIZE_MOD.

(** conversion of a [size_t] value to the signed [ssize_t] *)
Definition ssize_t (z : Z) : Z := (z + 2 ^ 63) mod SIZE_MOD - 2 ^ 63.

(** conversion to the 32-bit signed [int] *)
Definition int (z : Z) : Z := (z + 2 ^ 31) mod 2 ^ 32 - 2 ^ 31.

Lemma size_t_small z : 0 <= z < SIZE_MOD -> size_t z = z.
Proof. intros H. unfold size_t. now apply Z.mod_small. Qed.

Lemma ssize_t_small z : 0 <= z <= SSIZE_MAX -> ssize_t z = z.
Proof.
  unfold ssize_t, SSIZE_MAX, SIZE_MOD. intros H.
  rewrite Z.mod_small; lia.
Qed.

Lemma int_small z : - 2 ^ 31 <= z < 2 ^ 31 -> int z = z.
Proof. unfold int. intros H. rewrite Z.mod_small; lia. Qed.

End CInt.
Import CInt.

(** ** Strings and buffers *)

Definition byte := Byte.byte.

(** [std::string::c_str] seen through a [const char*]: the characters up
    to the first NUL. *)
Fixpoint c_str (s : string) : string :=
  match s with
  | EmptyString => EmptyString
  | String c s' => if Ascii.eqb c zero then EmptyString else String c (c_str s')
  end.

Definition strlen (s : string) : Z := Z.of_nat (String.length s).

(** [std::to_string] on an [int] *)
Definition to_string (z : Z) : string := NilZero.string_of_int (Z.to_int z).

(** A wide-text buffer is a list of 16-bit units; [store_units dst pos us]
    stores [us] from index [pos] on and drops what would fall behind the
    end of [dst]. *)
Fixpoint store_units (dst : list Z) (pos : nat) (us : list Z) : list Z :=
  match dst, pos with
  | [], _ => []
  | d :: dst', S pos' => d :: store_units dst' pos' us
  | d :: dst', O =>
      match us with
      | [] => dst
      | u :: us' => u :: store_units dst' O us'
      end
  end.

(** The bytes of a list of 16-bit units on a little-endian host. *)
Fixpoint le_bytes (us : list Z) : list Z :=
  match us with
  | [] => []
  | u :: us' => Z.land u 255 :: Z.shiftr u 8 :: le_bytes us'
  end.

Definition BOM : Z := 0xfeff.

(** ** The external collaborators *)

(** Calls into LAME that only read or change the encoder context. *)
Inductive lame_op : Type :=
| lame_set_brate (brate : Z)
| lame_set_preset (preset : Z)
| lame_set_asm_optimizations (optim mode : Z)
| lame_set_in_samplerate (hz : Z)
| lame_set_write_id3tag_automatic (v : Z)
| id3tag_init
| id3tag_set_title (s : string)
| id3tag_set_artist (s : string)
| id3tag_set_album (s : string)
| id3tag_set_year (s : string)
| id3tag_set_track (s : string)
| id3tag_set_genre (s : string)
| id3tag_add_v2
| id3tag_set_textinfo_utf16 (id : string) (text : option (list Z))
| id3tag_set_comment_utf16 (lang : option string) (desc text : option (list Z))
| lame_init_params.

(** Calls into LAME that also fill the output buffer handed to them. *)
Inductive lame_out_op : Type :=
| lame_get_id3v2_tag (size : Z)
| lame_get_id3v1_tag (size : Z)
| lame_encode_buffer_interleaved (pcm : list byte) (num_samples : Z) (mp3buf_size : Z)
| lame_encode_flush (size : Z)
| lame_get_lametag_frame (size : Z).

(** The LAME library over an encoder context of type [enc].  [lame_init]
    is the context a fresh [lame_init()] yields, [None] for a null
    pointer.  The preset and optimisation constants come from [lame.h]. *)
Class Lame (enc : Type) : Type := {
  lame_init : option enc;
  lame_ctl : lame_op -> enc -> enc * Z;
  lame_out : lame_out_op -> enc -> list byte -> enc * list byte * Z;
  MEDIUM : Z;
  STANDARD : Z;
  EXTREME : Z;
  MMX : Z;
  SSE : Z
}.

(** The C library over a process state of type [os]: [calloc] and
    [iconv_open] say whether they succeeded; [iconv src avail] is the
    sequence of UTF-16 units the conversion stores for the input bytes
    [src] with [avail] bytes of room. *)
Class Libc (os : Type) : Type := {
  calloc : Z -> Z -> os -> os * bool;
  free : os -> os;
  iconv_open : string -> string -> os -> os * bool;
  iconv_close : os -> os;
  iconv : list byte -> Z -> list Z
}.

Definition SEEK_SET : Z := 0.

Inductive log_level : Type := ADDON_LOG_ERROR.

(** Everything the add-on does to the outside, in program order. *)
Inductive event : Type :=
| LameCtl (op : lame_op) (ret : Z)
| LameOut (op : lame_out_op) (ret : Z)
| EvCalloc (nmemb size : Z) (ok : bool)
| EvFree (null : bool)
| EvIconvOpen (tocode fromcode : string) (ok : bool)
| EvIconv (src : list byte) (avail : Z)
| EvIconvClose
| EvLog (level : log_level) (msg : string)
| EvWrite (data : list byte) (len : Z)
| EvSeek (pos whence : Z).

Definition is_sink (ev : event) : bool :=
  match ev with
  | EvWrite _ _ | EvSeek _ _ => true
  | _ => false
  end.

Definition is_write (ev : event) : bool :=
  match ev with
  | EvWrite _ _ => true
  | _ => false
  end.

Definition is_seek (ev : event) : bool :=
  match ev with
  | EvSeek _ _ => true
  | _ => false
  end.

Definition is_calloc (ev : event) : bool :=
  match ev with
  | EvCalloc _ _ _ => true
  | _ => false
  end.

Definition is_set_genre (ev : event) : bool :=
  match ev with
  | LameCtl (id3tag_set_genre _) _ => true
  | _ => false
  end.

(** the sink's view of a trace *)
Definition sink_events (t : list event) : list event := filter is_sink t.

(** ** The data of the add-on *)

Record AudioEncoderInfoTag : Type := {
  GetChannels : Z;
  GetSamplerate : Z;
  GetBitsPerSample : Z;
  GetTrack : Z;
  GetTitle : string;
  GetArtist : string;
  GetAlbum : string;
  GetAlbumArtist : string;
  GetReleaseDate : string;
  GetGenre : string;
  GetComment : string
}.

Definition sizeof_m_buffer : Z := 65536.
Definition bytes_per_frame : Z := 2 * 2.

Arguments sizeof_m_buffer : simpl never.
Arguments bytes_per_frame : simpl never.
Arguments SEEK_SET : simpl never.

(** The object ([m_encoder] ... [m_bitrate]) together with the state of
    the process it runs in and the trace of what it has done so far.
    [m_encoder] is [None] for a null handle; [m_bitrate] is [None] while
    the member is not initialised. *)
Record World (enc os : Type) : Type := mkWorld {
  m_encoder : option enc;
  m_audio_pos : Z;
  m_buffer : list byte;
  m_preset : Z;
  m_bitrate : option Z;
  libc : os;
  trace : list event
}.
Arguments mkWorld {enc os}.
Arguments m_encoder {enc os}.
Arguments m_audio_pos {enc os}.
Arguments m_buffer {enc os}.
Arguments m_preset {enc os}.
Arguments m_bitrate {enc os}.
Arguments libc {enc os}.
Arguments trace {enc os}.

Section Addon.

Context {enc os : Type} {lame : Lame enc} {sys : Libc os}.

(** [kodi::GetSettingInt] *)
Variable GetSettingInt : string -> Z.

Abbreviation World := (World enc os).

(** *** A state monad over the world *)

Definition M (A : Type) : Type := World -> A * World.

Definition ret {A : Type} (a : A) : M A := fun w => (a, w).

Definition bind {A B : Type} (m : M A) (k : A -> M B) : M B :=
  fun w => let (a, w') := m w in k a w'.

Notation "x <- m ;; k" := (bind m (fun x => k))
  (at level 61, m at next level, right associativity).
Notation "m ;; k" := (bind m (fun _ => k))
  (at level 61, right associativity).

Definition record (ev : event) (w : World) : World :=
  mkWorld (m_encoder w) (m_audio_pos w) (m_buffer w) (m_preset w)
          (m_bitrate w) (libc w) (trace w ++ [ev]).

Definition emit (ev : event) : M unit := fun w => (tt, record ev w).

Definition get {A : Type} (f : World -> A) : M A := fun w => (f w, w).

Definition set_audio_pos (pos : Z) : M unit :=
  fun w => (tt, mkWorld (m_encoder w) pos (m_buffer w) (m_preset w)
                        (m_bitrate w) (libc w) (trace w)).

Definition set_preset (p : Z) : M unit :=
  fun w => (tt, mkWorld (m_encoder w) (m_audio_pos w) (m_buffer w) p
                        (m_bitrate w) (libc w) (trace w)).

Definition set_bitrate (b : Z) : M unit :=
  fun w => (tt, mkWorld (m_encoder w) (m_audio_pos w) (m_buffer w)
                        (m_preset w) (Some b) (libc w) (trace w)).

(** A call into LAME through [m_encoder].  Every method tests the
    handle before its first call, so the [None] branch is never run. *)
Definition ctl (op : lame_op) : M Z :=
  fun w =>
    match m_encoder w with
    | Some e =>
        let (e', r) := lame_ctl op e in
        (r, mkWorld (Some e') (m_audio_pos w) (m_buffer w) (m_preset w)
                    (m_bitrate w) (libc w) (trace w ++ [LameCtl op r]))
    | None => (0, w)
    end.

(** A call into LAME that fills [m_buffer]. *)
Definition out (op : lame_out_op) : M Z :=
  fun w =>
    match m_encoder w with
    | Some e =>
        let '(e', buf, r) := lame_out op e (m_buffer w) in
        (r, mkWorld (Some e') (m_audio_pos w) buf (m_preset w)
                    (m_bitrate w) (libc w) (trace w ++ [LameOut op r]))
    | None => (0, w)
    end.

Definition with_libc (o : os) (ev : event) (w : World) : World :=
  mkWorld (m_encoder w) (m_audio_pos w) (m_buffer w) (m_preset w)
          (m_bitrate w) o (trace w ++ [ev]).

Definition sys_calloc (nmemb size : Z) : M bool :=
  fun w => let (o, ok) := calloc nmemb size (libc w) in
           (ok, with_libc o (EvCalloc nmemb size ok) w).

Definition sys_free (p : option (list Z)) : M unit :=
  fun w =>
    let null := match p with None => true | Some _ => false end in
    (tt, with_libc (free (libc w)) (EvFree null) w).

Definition sys_iconv_open (tocode fromcode : string) : M bool :=
  fun w => let (o, ok) := iconv_open tocode fromcode (libc w) in
           (ok, with_libc o (EvIconvOpen tocode fromcode ok) w).

Definition sys_iconv (src : list byte) (avail : Z) : M (list Z) :=
  fun w => (iconv src avail, record (EvIconv src avail) w).

Definition sys_iconv_close : M unit :=
  fun w => (tt, with_libc (iconv_close (libc w)) EvIconvClose w).

(** the host's callbacks *)
Definition Log (level : log_level) (msg : string) : M unit :=
  emit (EvLog level msg).

(** [Write(m_buffer, len)]: [len] is the [size_t] the sink receives.  A
    call whose argument is an [int] that may be negative converts it. *)
Definition Write (len : Z) : M unit :=
  fun w => emit (EvWrite (m_buffer w) len) w.

Definition Seek (pos whence : Z) : M unit := emit (EvSeek pos whence).

(** *** [CEncoderLame::ToUtf16] *)

Definition ToUtf16 (src : option string) : M (option (list Z)) :=
  match src with
  | None => ret None
  | Some s =>
      let l := strlen s in
      let n := size_t ((l + 1) * 4) in
      ok <- sys_calloc (size_t (n + 4)) 4 ;;
      if ok then
        (* (n + 4) * 4 zeroed bytes, seen as 16-bit units *)
        let dst := repeat 0 (Z.to_nat (2 * size_t (n + 4))) in
        xiconv <- sys_iconv_open "UTF-16LE//TRANSLIT" "UTF-8" ;;
        let dst := store_units dst 0 [BOM] in
        if xiconv then
          us <- sys_iconv (list_byte_of_string s) n ;;
          sys_iconv_close ;;
          ret (Some (store_units dst 1 us))
        else ret (Some dst)
      else ret None
  end.

(** *** The constructor *)

Definition CEncoderLame_new (buf0 : list byte) (os0 : os) : World :=
  let w0 := mkWorld lame_init 0 buf0 (-1) None os0 [] in
  match lame_init with
  | None =>
      snd (Log ADDON_LOG_ERROR "Failed to construct lame stream encoder" w0)
  | Some _ =>
      snd ((let value := GetSettingInt "preset" in
            (if value =? 0 then set_preset MEDIUM
             else if value =? 1 then set_preset STANDARD
             else if value =? 2 then set_preset EXTREME
             else ret tt) ;;
            let bitrate := int (128 + 32 * GetSettingInt "bitrate") in
            set_bitrate bitrate ;;
            preset <- get m_preset ;;
            (if preset =? -1 then ctl (lame_set_brate bitrate)
             else ctl (lame_set_preset preset)) ;;
            ctl (lame_set_asm_optimizations MMX 1) ;;
            ctl (lame_set_asm_optimizations SSE 1)) w0)
  end.

(** *** [CEncoderLame::Start] *)

(** one text frame of the ID3v2 tag: transcode, attach, release *)
Definition set_textinfo (id : string) (s : string) : M unit :=
  value <- ToUtf16 (Some (c_str s)) ;;
  ctl (id3tag_set_textinfo_utf16 id value) ;;
  sys_free value.

Definition set_comment (s : string) : M unit :=
  value <- ToUtf16 (Some (c_str s)) ;;
  ctl (id3tag_set_comment_utf16 None None value) ;;
  sys_free value.

Definition Start (tag : AudioEncoderInfoTag) : M bool :=
  handle <- get m_encoder ;;
  match handle with
  | None => ret false
  | Some _ =>
      (* we accept only 2 ch 16 bit atm *)
      if negb (GetChannels tag =? 2) || negb (GetBitsPerSample tag =? 16)
      then
        Log ADDON_LOG_ERROR "Invalid input format to encode" ;;
        ret false
      else
        ctl (lame_set_in_samplerate (GetSamplerate tag)) ;;
        (* disable automatic ID3 tag writing *)
        ctl (lame_set_write_id3tag_automatic 0) ;;
        (* set up the ID3 tagger *)
        ctl id3tag_init ;;
        ctl (id3tag_set_title (c_str (GetTitle tag))) ;;
        ctl (id3tag_set_artist (c_str (GetArtist tag))) ;;
        ctl (id3tag_set_album (c_str (GetAlbum tag))) ;;
        ctl (id3tag_set_year (c_str (GetReleaseDate tag))) ;;
        ctl (id3tag_set_track (to_string (GetTrack tag))) ;;
        test <- ctl (id3tag_set_genre (c_str (GetGenre tag))) ;;
        (if test =? -1 then ctl (id3tag_set_genre "Other") ;; ret tt
         else ret tt) ;;
        let useVer2 := GetSettingInt "id3version" =? 2 in
        (if useVer2 then
           ctl id3tag_add_v2 ;;
           set_textinfo "TPE1" (GetArtist tag) ;;
           set_textinfo "TIT2" (GetTitle tag) ;;
           set_textinfo "TPE1" (GetArtist tag) ;;
           set_textinfo "TPE2" (GetAlbumArtist tag) ;;
           set_textinfo "TALB" (GetAlbum tag) ;;
           set_textinfo "TYER" (GetReleaseDate tag) ;;
           set_textinfo "TRCK" (to_string (GetTrack tag)) ;;
           set_textinfo "TCON" (GetGenre tag) ;;
           set_comment (GetComment tag)
         else ret tt) ;;
        (* let lame analyse the options and check for problems *)
        ok <- ctl lame_init_params ;;
        if ok <? 0 then ret false
        else
          (* now write the ID3 tag information, storing the position *)
          size <- (if useVer2 then out (lame_get_id3v2_tag sizeof_m_buffer)
                   else out (lame_get_id3v1_tag sizeof_m_buffer)) ;;
          let tag_length := int size in
          (if negb (tag_length =? 0) then
             (* the [int] is converted to the [size_t] of [Write] *)
             Write (size_t tag_length) ;;
             set_audio_pos tag_length
           else ret tt) ;;
          ret true
  end.

(** *** [CEncoderLame::Encode] *)

(** What one pass through the body of the [while] loop does: it either
    leaves the method with the error value or goes on with the advanced
    [stream] pointer and the new [bytes_left]. *)
Inductive pass : Type :=
| Failed (w : World)
| Advanced (stream : list byte) (bytes_left : Z) (w : World).

Definition Encode_pass (stream : list byte) (bytes_left : Z) (w : World)
  : pass :=
  let frames := Z.min (bytes_left / bytes_per_frame) 4096 in
  let (written, w1) :=
    out (lame_encode_buffer_interleaved stream frames sizeof_m_buffer) w in
  if written <? 0 then Failed w1 (* error *)
  else
    let (_, w2) := Write written w1 in
    Advanced (skipn (Z.to_nat (frames * bytes_per_frame)) stream)
             (size_t (bytes_left - frames * bytes_per_frame)) w2.

(** The loop, and the [return] behind it.  [None]: the loop is still
    running when the fuel is used up. *)
Fixpoint Encode_loop (fuel : nat) (numBytesRead : Z) (stream : list byte)
  (bytes_left : Z) (w : World) : option (Z * World) :=
  match fuel with
  | O => None
  | S fuel' =>
      if bytes_left =? 0
      then Some (ssize_t (size_t (numBytesRead - bytes_left)), w)
      else
        match Encode_pass stream bytes_left w with
        | Failed w1 => Some (-1, w1)
        | Advanced stream' bytes_left' w2 =>
            Encode_loop fuel' numBytesRead stream' bytes_left' w2
        end
  end.

(** The pointer [stream] and the length [numBytesRead] are one list. *)
Definition Encode (fuel : nat) (stream : list byte) (w : World)
  : option (Z * World) :=
  match m_encoder w with
  | None => Some (-1, w)
  | Some _ =>
      let numBytesRead := Z.of_nat (List.length stream) in
      Encode_loop fuel numBytesRead stream numBytesRead w
  end.

(** The state of the loop after [n] passes, none of which failed. *)
Fixpoint Encode_passes (n : nat) (stream : list byte) (bytes_left : Z)
  (w : World) : option (list byte * Z * World) :=
  match n with
  | O => Some (stream, bytes_left, w)
  | S n' =>
      if bytes_left =? 0 then None
      else
        match Encode_pass stream bytes_left w with
        | Failed _ => None
        | Advanced stream' bytes_left' w' =>
            Encode_passes n' stream' bytes_left' w'
        end
  end.

(** *** [CEncoderLame::Finish] *)

Definition Finish : M bool :=
  handle <- get m_encoder ;;
  match handle with
  | None => ret false
  | Some _ =>
      (* may return one more mp3 frames *)
      written <- out (lame_encode_flush sizeof_m_buffer) ;;
      if written <? 0 then ret false
      else
        Write written ;;
        (* write id3v1 tag to file *)
        size1 <- out (lame_get_id3v1_tag sizeof_m_buffer) ;;
        let id3v1tag := int size1 in
        (if 0 <? id3v1tag then Write id3v1tag else ret tt) ;;
        (* update LAME/Xing tag *)
        size2 <- out (lame_get_lametag_frame sizeof_m_buffer) ;;
        let lameTag := int size2 in
        audio_pos <- get m_audio_pos ;;
        (if negb (audio_pos =? 0) && (0 <? lameTag) then
           Seek audio_pos SEEK_SET ;;
           Write lameTag
         else ret tt) ;;
        ret true
  end.

(** *** Notions used to state the properties *)

(** the bytes that [Write(data, len)] hands to the sink, as long as
    [data] holds [len] bytes *)
Definition write_bytes (data : list byte) (len : Z) : list byte :=
  firstn (Z.to_nat len) data.

Definition live (w : World) : bool :=
  match m_encoder w with
  | Some _ => true
  | None => false
  end.

(** the value [written] that the pass starting in this loop state gets
    from [lame_encode_buffer_interleaved] *)
Definition Encode_written (stream : list byte) (bytes_left : Z) (w : World)
  : Z :=
  fst (out (lame_encode_buffer_interleaved
              stream (Z.min (bytes_left / bytes_per_frame) 4096)
              sizeof_m_buffer) w).

(** no pass of the loop started in this state gets a negative result *)
Definition never_fails_from (stream : list byte) (bytes_left : Z)
  (w : World) : Prop :=
  forall n s bl wn,
    Encode_passes n stream bytes_left w = Some (s, bl, wn) ->
    bl <> 0 -> 0 <= Encode_written s bl wn.

Definition encode_never_fails (stream : list byte) (w : World) : Prop :=
  never_fails_from stream (Z.of_nat (List.length stream)) w.

(** some pass of the call gets a negative result: the [n] passes before
    it went through, and the next one fails in the state [wn] *)
Definition encode_fails_at (n : nat) (stream : list byte) (w wn : World)
  : Prop :=
  exists s bl,
    Encode_passes n stream (Z.of_nat (List.length stream)) w = Some (s, bl, wn)
    /\ bl <> 0 /\ Encode_written s bl wn < 0.

Definition is_encode_call (ev : event) : bool :=
  match ev with
  | LameOut (lame_encode_buffer_interleaved _ _ _) _ => true
  | _ => false
  end.

(** how often the trace enters the body of the loop of [Encode] *)
Definition encode_calls (t : list event) : nat :=
  List.length (filter is_encode_call t).

Definition writes (t : list event) : nat := List.length (filter is_write t).

(** [w1] comes after [w0]: same handle state, same audio position, and a
    trace that extends the one of [w0] by events that [ok] admits *)
Definition ext (ok : event -> bool) (w0 w1 : World) : Prop :=
  live w1 = live w0
  /\ m_audio_pos w1 = m_audio_pos w0
  /\ exists d, trace w1 = trace w0 ++ d /\ forallb ok d = true.

(** a command that only ever moves the world forward in that way *)
Definition quiet (ok : event -> bool) {A : Type} (c : M A) : Prop :=
  forall w, ext ok w (snd (c w)).

(** events that neither touch the sink nor assign the genre *)
Definition is_inner (ev : event) : bool :=
  negb (is_sink ev) && negb (is_set_genre ev).

Definition admits (ok : event -> bool) : Prop :=
  forall ev, is_inner ev = true -> ok ev = true.

(** calls of the ID3 tagger of LAME *)
Definition is_id3tag_call (ev : event) : bool :=
  match ev with
  | LameCtl op _ =>
      match op with
      | id3tag_init | id3tag_set_title _ | id3tag_set_artist _
      | id3tag_set_album _ | id3tag_set_year _ | id3tag_set_track _
      | id3tag_set_genre _ | id3tag_add_v2
      | id3tag_set_textinfo_utf16 _ _ | id3tag_set_comment_utf16 _ _ _ => true
      | _ => false
      end
  | _ => false
  end.

Definition no_id3tag (ev : event) : bool := negb (is_id3tag_call ev).
Definition no_sink (ev : event) : bool := negb (is_sink ev).
Definition no_genre (ev : event) : bool := negb (is_set_genre ev).

(** *** Further notions: the calls of the encoder *)

(** a call of the encoder asks for at most 4096 frames, for no more
    frames than the buffer behind the pointer holds, and announces the
    size of [m_buffer] *)
Definition safe_call (ev : event) : Prop :=
  match ev with
  | LameOut (lame_encode_buffer_interleaved pcm n size) _ =>
      0 <= n <= 4096
      /\ n * bytes_per_frame <= Z.of_nat (List.length pcm)
      /\ size = sizeof_m_buffer
  | _ => True
  end.

(** a trace made of passes that went through: a call of the encoder with
    a result that is not negative, then the write of that many bytes *)
Inductive encode_pairs : list event -> Prop :=
| pairs_nil : encode_pairs []
| pairs_cons pcm n size r buf d :
    0 <= r ->
    encode_pairs d ->
    encode_pairs (LameOut (lame_encode_buffer_interleaved pcm n size) r
                  :: EvWrite buf r :: d).

(** The same passes with the encoder context and the content of
    [m_buffer] followed through them: a pass calls the encoder on the
    context [e] and the buffer [b], gets the result [r], not negative, and
    writes [r] bytes of the buffer [b1] that this call filled; the next
    pass goes on from the context and the buffer the call left. *)
Inductive encode_run
  : enc -> list byte -> list event -> enc -> list byte -> Prop :=
| run_nil e b : encode_run e b [] e b
| run_cons pcm n size e b e1 b1 r d e' b' :
    lame_out (lame_encode_buffer_interleaved pcm n size) e b = (e1, b1, r) ->
    0 <= r ->
    encode_run e1 b1 d e' b' ->
    encode_run e b
      (LameOut (lame_encode_buffer_interleaved pcm n size) r
       :: EvWrite b1 r :: d) e' b'.

(** the frame counts the encoder was called with, in order *)
Definition encode_frames (t : list event) : list Z :=
  flat_map (fun ev =>
              match ev with
              | LameOut (lame_encode_buffer_interleaved _ n _) _ => [n]
              | _ => []
              end) t.

(** [N] frames cut into batches of 4096 and a last, smaller one *)
Definition batches (N : Z) : list Z :=
  repeat 4096 (Z.to_nat (N / 4096))
  ++ (if N mod 4096 =? 0 then [] else [N mod 4096]).

(** *** Further notions: what [Start] does to the C library and the tag *)

Definition is_libc (ev : event) : bool :=
  match ev with
  | EvCalloc _ _ _ | EvFree _ | EvIconvOpen _ _ _ | EvIconv _ _
  | EvIconvClose => true
  | _ => false
  end.

Definition no_libc (ev : event) : bool := negb (is_libc ev).

(** What [Start] asks of the C library, call by call: an allocation that
    is granted or refused, the opening of a conversion descriptor that
    succeeds or fails, a conversion, the closing of the descriptor, and a
    [free] of a block or of the null pointer. *)
Inductive resource_event : Type :=
| RAlloc | RAllocFailed | ROpen | ROpenFailed | RConvert | RClose
| RFree | RFreeNull.

Definition resource_of (ev : event) : list resource_event :=
  match ev with
  | EvCalloc _ _ true => [RAlloc]
  | EvCalloc _ _ false => [RAllocFailed]
  | EvIconvOpen _ _ true => [ROpen]
  | EvIconvOpen _ _ false => [ROpenFailed]
  | EvIconv _ _ => [RConvert]
  | EvIconvClose => [RClose]
  | EvFree false => [RFree]
  | EvFree true => [RFreeNull]
  | _ => []
  end.

(** The calls come in rounds of three kinds only.  A granted block is
    given back by a [free] before anything else is asked for; in between,
    a descriptor that was opened is used once and closed, and one that
    could not be opened is neither used nor closed.  A refused allocation
    is followed by nothing but the [free] of the null pointer, and this is
    the only place where [free] gets the null pointer. *)
Inductive released : list resource_event -> Prop :=
| released_nil : released []
| released_refused l :
    released l -> released (RAllocFailed :: RFreeNull :: l)
| released_block l :
    released l -> released (RAlloc :: ROpenFailed :: RFree :: l)
| released_conv l :
    released l ->
    released (RAlloc :: ROpen :: RConvert :: RClose :: RFree :: l).

(** the frames attached to the ID3v2 tag *)
Inductive v2_frame : Type :=
| TextFrame (id : string)
| CommentFrame.

Definition frame_of (ev : event) : list v2_frame :=
  match ev with
  | LameCtl (id3tag_set_textinfo_utf16 id _) _ => [TextFrame id]
  | LameCtl (id3tag_set_comment_utf16 _ _ _) _ => [CommentFrame]
  | _ => []
  end.

(** the text of the genre frame TCON handed to the tagger *)
Definition genre_frame (ev : event) : list (option (list Z)) :=
  match ev with
  | LameCtl (id3tag_set_textinfo_utf16 id text) _ =>
      if String.eqb id "TCON" then [text] else []
  | _ => []
  end.

(** the list holds one text, the one [ToUtf16] makes of [s0] *)
Definition carries (s0 : string) (l : list (option (list Z))) : Prop :=
  exists wx : World, l = [fst (ToUtf16 (Some s0) wx)].

(** calls that hand a genre to the tagger: [id3tag_set_genre] and the
    text frame TCON *)
Definition is_genre_call (ev : event) : bool :=
  match ev with
  | LameCtl (id3tag_set_genre _) _ => true
  | LameCtl (id3tag_set_textinfo_utf16 id _) _ => String.eqb id "TCON"
  | _ => false
  end.

(** the world after the call [op] into LAME on the context [e] *)
Definition after_ctl (op : lame_op) (e : enc) (w : World) : World :=
  mkWorld (Some (fst (lame_ctl op e))) (m_audio_pos w) (m_buffer w)
          (m_preset w) (m_bitrate w) (libc w)
          (trace w ++ [LameCtl op (snd (lame_ctl op e))]).

(** with a live handle, the command keeps the handle, and the view [g]
    of what it adds to the trace satisfies [P] *)
Definition emits {X : Type} (g : event -> list X) (P : list X -> Prop)
  {A : Type} (c : M A) : Prop :=
  forall w,
    live w = true ->
    live (snd (c w)) = true
    /\ exists d, trace (snd (c w)) = trace w ++ d /\ P (flat_map g d).

(** *** [CMyAddon::CreateInstance] *)

Inductive ADDON_STATUS : Type := ADDON_STATUS_OK.

(** [addonInstance = new CEncoderLame(instance, version)] *)
Definition CreateInstance (buf0 : list byte) (os0 : os)
  : ADDON_STATUS * World :=
  (ADDON_STATUS_OK, CEncoderLame_new buf0 os0).

End Addon.

(** ** Small stand-ins for the libraries, to run the add-on on *)

Module Demo.

Import Byte.

(** The context counts the calls of [lame_encode_buffer_interleaved];
    the call numbered [fail_at] reports an error.  Genres other than a
    few known ones are refused with -1. *)
Definition demo_ctl (op : lame_op) (e : nat) : nat * Z :=
  match op with
  | id3tag_set_genre s =>
      if String.eqb s "Other" || String.eqb s "Rock" then (e, 0) else (e, -1)
  | _ => (e, 0)
  end.

Definition demo_out (fail_at : option nat) (op : lame_out_op) (e : nat)
  (buf : list byte) : nat * list byte * Z :=
  match op with
  | lame_get_id3v2_tag _ => (e, [x49; x44; x33; x04], 4)
  | lame_get_id3v1_tag _ => (e, [x54; x41; x47], 3)
  | lame_encode_buffer_interleaved pcm n _ =>
      match fail_at with
      | Some k => if Nat.eqb k e then (S e, buf, -1) else (S e, [xff; xfb], 2)
      | None => (S e, [xff; xfb], 2)
      end
  | lame_encode_flush _ => (e, [xff], 1)
  | lame_get_lametag_frame _ => (e, [x58; x69], 2)
  end.

Definition demo_lame (fail_at : option nat) : Lame nat := {|
  lame_init := Some O;
  lame_ctl := demo_ctl;
  lame_out := demo_out fail_at;
  MEDIUM := 1006;
  STANDARD := 1001;
  EXTREME := 1002;
  MMX := 1;
  SSE := 3
|}.

(** The process state is the number of allocations that still succeed;
    the conversion maps each input byte to one unit. *)
Definition demo_libc : Libc nat := {|
  calloc := fun _ _ o => match o with O => (O, false) | S o' => (o', true) end;
  free := fun o => o;
  iconv_open := fun _ _ o => (o, true);
  iconv_close := fun o => o;
  iconv := fun src avail =>
    firstn (Z.to_nat (avail / 2)) (map (fun b => Z.of_N (Byte.to_N b)) src)
|}.

Definition settings (id3version : Z) (name : string) : Z :=
  if String.eqb name "id3version" then id3version else 0.

(** a session with a live handle and nothing done yet *)
Definition session (audio_pos : Z) : World nat nat :=
  mkWorld (Some O) audio_pos [] (-1) (Some 128) 8%nat [].

(** a session whose [lame_init] failed *)
Definition dead_session : World nat nat :=
  mkWorld None 0 [] (-1) None 8%nat [].

Definition stereo16 (genre : string) : AudioEncoderInfoTag := {|
  GetChannels := 2;
  GetSamplerate := 44100;
  GetBitsPerSample := 16;
  GetTrack := 7;
  GetTitle := "Title";
  GetArtist := "Artist";
  GetAlbum := "Album";
  GetAlbumArtist := "Various";
  GetReleaseDate := "2021";
  GetGenre := genre;
  GetComment := "none"
|}.

Definition mono16 : AudioEncoderInfoTag := {|
  GetChannels := 1;
  GetSamplerate := 44100;
  GetBitsPerSample := 16;
  GetTrack := 1;
  GetTitle := "T";
  GetArtist := "A";
  GetAlbum := "B";
  GetAlbumArtist := "C";
  GetReleaseDate := "2021";
  GetGenre := "Rock";
  GetComment := EmptyString
|}.

Definition pcm (n : nat) : list byte := repeat x00 n.

(** a LAME library whose [lame_init] fails *)
Definition dead_lame : Lame nat := {|
  lame_init := None;
  lame_ctl := demo_ctl;
  lame_out := demo_out None;
  MEDIUM := 1006;
  STANDARD := 1001;
  EXTREME := 1002;
  MMX := 1;
  SSE := 3
|}.

(** the object the constructor builds on the stand-ins *)
Definition new_session (id3version : Z) : World nat nat :=
  CEncoderLame_new (lame := demo_lame None) (settings id3version) [] 9%nat.

(** A LAME library whose ID3v2 tag needs 70000 bytes: the fetch copies
    nothing into the smaller buffer and reports the size it needs. *)
Definition oversize_out (op : lame_out_op) (e : nat) (buf : list byte)
  : nat * list byte * Z :=
  match op with
  | lame_get_id3v2_tag _ => (e, buf, 70000)
  | _ => demo_out None op e buf
  end.

Definition oversize_lame : Lame nat := {|
  lame_init := Some O;
  lame_ctl := demo_ctl;
  lame_out := oversize_out;
  MEDIUM := 1006;
  STANDARD := 1001;
  EXTREME := 1002;
  MMX := 1;
  SSE := 3
|}.

(** a session whose [m_buffer] has its 65536 bytes, all of them zero *)
Definition full_session : World nat nat :=
  mkWorld (Some O) 0 (repeat x00 (Z.to_nat sizeof_m_buffer)) (-1)
          (Some 128) 8%nat [].

(** A tagger that keeps the genre it accepted last.  [id3tag_set_genre]
    knows a few names and refuses the others with -1; a TCON frame is
    kept as it comes; the tag that is fetched is the text of the genre. *)
Fixpoint units_to_string (us : list Z) : string :=
  match us with
  | [] => EmptyString
  | u :: us' =>
      if u =? 0 then EmptyString
      else String (ascii_of_nat (Z.to_nat u)) (units_to_string us')
  end.

(** the text behind the byte-order mark *)
Definition text_of (value : option (list Z)) : string :=
  match value with
  | Some (_ :: us) => units_to_string us
  | _ => EmptyString
  end.

Definition tagger_ctl (op : lame_op) (e : string) : string * Z :=
  match op with
  | id3tag_set_genre s =>
      if String.eqb s "Other" || String.eqb s "Rock" then (s, 0) else (e, -1)
  | id3tag_set_textinfo_utf16 id value =>
      if String.eqb id "TCON" then (text_of value, 0) else (e, 0)
  | _ => (e, 0)
  end.

Definition tagger_out (op : lame_out_op) (e : string) (buf : list byte)
  : string * list byte * Z :=
  match op with
  | lame_get_id3v2_tag _ | lame_get_id3v1_tag _ =>
      (e, list_byte_of_string e, Z.of_nat (String.length e))
  | _ => (e, buf, 0)
  end.

Definition tagger_lame : Lame string := {|
  lame_init := Some EmptyString;
  lame_ctl := tagger_ctl;
  lame_out := tagger_out;
  MEDIUM := 1006;
  STANDARD := 1001;
  EXTREME := 1002;
  MMX := 1;
  SSE := 3
|}.

Definition tagger_session : World string nat :=
  mkWorld (Some EmptyString) 0 [] (-1) (Some 128) 16%nat [].

End Demo.

(** ** The loop of [Encode] *)

Section EncodeFacts.

Context {enc os : Type} {lame : Lame enc}.

Abbreviation World := (World enc os).

Implicit Types (w : World) (stream s : list byte).

Lemma out_live op w e :
  m_encoder w = Some e ->
  out op w =
    (snd (lame_out op e (m_buffer w)),
     mkWorld (Some (fst (fst (lame_out op e (m_buffer w)))))
             (m_audio_pos w) (snd (fst (lame_out op e (m_buffer w))))
             (m_preset w) (m_bitrate w) (libc w)
             (trace w ++ [LameOut op (snd (lame_out op e (m_buffer w)))])).
Proof.
  intros He. unfold out. rewrite He.
  destruct (lame_out op e (m_buffer w)) as [[e' buf] r]. reflexivity.
Qed.

Lemma out_keeps_live op w : live (snd (out op w)) = live w.
Proof.
  unfold out, live. destruct (m_encoder w) as [e|] eqn:E.
  - destruct (lame_out op e (m_buffer w)) as [[e' buf] r]. reflexivity.
  - simpl. now rewrite E.
Qed.

(** The two ways a pass can go, by the sign of [written]. *)
Lemma Encode_pass_failed stream bl w :
  Encode_written stream bl w < 0 ->
  Encode_pass stream bl w =
    Failed (snd (out (lame_encode_buffer_interleaved
                        stream (Z.min (bl / bytes_per_frame) 4096)
                        sizeof_m_buffer) w)).
Proof.
  unfold Encode_written, Encode_pass. intros H.
  destruct (out _ w) as [written w1]. simpl in *.
  apply Z.ltb_lt in H. now rewrite H.
Qed.

Lemma Encode_pass_advanced stream bl w :
  0 <= Encode_written stream bl w ->
  let frames := Z.min (bl / bytes_per_frame) 4096 in
  let w1 := snd (out (lame_encode_buffer_interleaved
                        stream frames sizeof_m_buffer) w) in
  Encode_pass stream bl w =
    Advanced (skipn (Z.to_nat (frames * bytes_per_frame)) stream)
             (size_t (bl - frames * bytes_per_frame))
             (record (EvWrite (m_buffer w1) (Encode_written stream bl w)) w1).
Proof.
  unfold Encode_written, Encode_pass. intros H.
  destruct (out _ w) as [written w1]. simpl in *.
  apply Z.ltb_ge in H. now rewrite H.
Qed.

Lemma Encode_pass_inv stream bl w :
  (Encode_written stream bl w < 0 /\ exists w1, Encode_pass stream bl w = Failed w1)
  \/ (0 <= Encode_written stream bl w /\
      exists w2, Encode_pass stream bl w =
        Advanced (skipn (Z.to_nat (Z.min (bl / bytes_per_frame) 4096
                                   * bytes_per_frame)) stream)
                 (size_t (bl - Z.min (bl / bytes_per_frame) 4096
                               * bytes_per_frame)) w2).
Proof.
  destruct (Z_lt_le_dec (Encode_written stream bl w) 0) as [H|H].
  - left. split; [exact H|]. eexists. now apply Encode_pass_failed.
  - right. split; [exact H|]. eexists. now apply Encode_pass_advanced.
Qed.

Lemma Encode_loop_S fuel nbr stream bl w :
  Encode_loop (S fuel) nbr stream bl w =
    if bl =? 0 then Some (ssize_t (size_t (nbr - bl)), w)
    else match Encode_pass stream bl w with
         | Failed w1 => Some (-1, w1)
         | Advanced stream' bl' w2 => Encode_loop fuel nbr stream' bl' w2
         end.
Proof. reflexivity. Qed.

Lemma Encode_passes_S n stream bl w :
  Encode_passes (S n) stream bl w =
    if bl =? 0 then None
    else match Encode_pass stream bl w with
         | Failed _ => None
         | Advanced stream' bl' w' => Encode_passes n stream' bl' w'
         end.
Proof. reflexivity. Qed.

(** More fuel does not change a result. *)
Lemma Encode_loop_mono fuel : forall k nbr stream bl w r,
  Encode_loop fuel nbr stream bl w = Some r ->
  Encode_loop (fuel + k) nbr stream bl w = Some r.
Proof.
  induction fuel as [|fuel IH]; intros k nbr stream bl w r H; [discriminate|].
  simpl in *. destruct (bl =? 0); [exact H|].
  destruct (Encode_pass stream bl w) as [w1|s' bl' w2]; [exact H|].
  now apply IH.
Qed.

Lemma Encode_mono fuel k stream w r :
  Encode fuel stream w = Some r -> Encode (fuel + k) stream w = Some r.
Proof.
  unfold Encode. destruct (m_encoder w); [|trivial].
  apply Encode_loop_mono.
Qed.

(** Running [n] good passes and then the loop is running the loop. *)
Lemma Encode_loop_after_passes n : forall fuel nbr stream bl w s' bl' w',
  Encode_passes n stream bl w = Some (s', bl', w') ->
  Encode_loop (n + fuel) nbr stream bl w = Encode_loop fuel nbr s' bl' w'.
Proof.
  induction n as [|n IH]; intros fuel nbr stream bl w s' bl' w' H; simpl in *.
  - now inversion H.
  - destruct (bl =? 0); [discriminate|].
    destruct (Encode_pass stream bl w) as [w1|s1 bl1 w1]; [discriminate|].
    now apply IH.
Qed.

Lemma never_fails_step stream bl w s' bl' w' :
  never_fails_from stream bl w ->
  bl <> 0 ->
  Encode_pass stream bl w = Advanced s' bl' w' ->
  never_fails_from s' bl' w'.
Proof.
  intros Hnf Hnz Hp n s2 bl2 w2 Hn Hnz2.
  apply (Hnf (S n) s2 bl2 w2); [|exact Hnz2].
  rewrite Encode_passes_S. apply Z.eqb_neq in Hnz. now rewrite Hnz, Hp.
Qed.

Lemma never_fails_head stream bl w :
  never_fails_from stream bl w -> bl <> 0 -> 0 <= Encode_written stream bl w.
Proof. intros Hnf Hnz. now apply (Hnf O stream bl w). Qed.

Lemma live_handle w : live w = true -> exists e, m_encoder w = Some e.
Proof. unfold live. destruct (m_encoder w) as [e|]; [eauto|discriminate]. Qed.

Lemma out_trace_live op w :
  live w = true ->
  trace (snd (out op w)) = trace w ++ [LameOut op (fst (out op w))].
Proof.
  intros Hl. destruct (live_handle w Hl) as [e He].
  rewrite (out_live op w e He). reflexivity.
Qed.

Lemma writes_app t1 t2 : writes (t1 ++ t2) = (writes t1 + writes t2)%nat.
Proof. unfold writes. now rewrite filter_app, length_app. Qed.

Lemma encode_calls_app t1 t2 :
  encode_calls (t1 ++ t2) = (encode_calls t1 + encode_calls t2)%nat.
Proof. unfold encode_calls. now rewrite filter_app, length_app. Qed.

Lemma out_writes op w : writes (trace (snd (out op w))) = writes (trace w).
Proof.
  unfold out. destruct (m_encoder w) as [e|]; [|reflexivity].
  destruct (lame_out op e (m_buffer w)) as [[e' buf] r]. simpl.
  rewrite writes_app. simpl. apply Nat.add_0_r.
Qed.

(** A pass that goes through leaves one more [Write] in the trace and
    keeps the handle. *)
Lemma Encode_pass_effect stream bl w s' bl' w' :
  Encode_pass stream bl w = Advanced s' bl' w' ->
  writes (trace w') = S (writes (trace w)) /\ live w' = live w.
Proof.
  unfold Encode_pass.
  pose proof (out_writes (lame_encode_buffer_interleaved
    stream (Z.min (bl / bytes_per_frame) 4096) sizeof_m_buffer) w) as Hw.
  pose proof (out_keeps_live (lame_encode_buffer_interleaved
    stream (Z.min (bl / bytes_per_frame) 4096) sizeof_m_buffer) w) as Hl.
  destruct (out _ w) as [written w1]. simpl in Hw, Hl.
  destruct (written <? 0); [discriminate|].
  simpl. intros H. inversion H; subst; clear H. simpl.
  rewrite writes_app, Hw. split; [unfold writes; simpl; lia|exact Hl].
Qed.

Lemma Encode_passes_effect n : forall stream bl w s' bl' w',
  Encode_passes n stream bl w = Some (s', bl', w') ->
  writes (trace w') = (writes (trace w) + n)%nat /\ live w' = live w.
Proof.
  induction n as [|n IH]; intros stream bl w s' bl' w' H; simpl in H.
  - inversion H; subst. split; [lia|reflexivity].
  - destruct (bl =? 0); [discriminate|].
    destruct (Encode_pass stream bl w) as [w1|s1 bl1 w1] eqn:Hp; [discriminate|].
    destruct (Encode_pass_effect _ _ _ _ _ _ Hp) as [Hw Hl].
    destruct (IH _ _ _ _ _ _ H) as [Hw' Hl'].
    split; [lia|congruence].
Qed.

(** *** Inputs of whole frames *)

Lemma frames_of_whole k :
  Z.min (4 * Z.of_nat k / bytes_per_frame) 4096 = Z.min (Z.of_nat k) 4096.
Proof.
  unfold bytes_per_frame. f_equal.
  rewrite Z.mul_comm. now apply Z.div_mul.
Qed.

Lemma Encode_loop_whole_frames k : forall nbr stream w,
  4 * Z.of_nat k < SIZE_MOD ->
  never_fails_from stream (4 * Z.of_nat k) w ->
  exists fuel w',
    Encode_loop fuel nbr stream (4 * Z.of_nat k) w
    = Some (ssize_t (size_t (nbr - 0)), w').
Proof.
  induction k as [k IH] using lt_wf_ind. intros nbr stream w Hlt Hnf.
  destruct k as [|k'].
  - exists 1%nat, w. reflexivity.
  - set (k := S k') in *.
    assert (Hnz : 4 * Z.of_nat k <> 0) by (subst k; lia).
    pose proof (never_fails_head _ _ _ Hnf Hnz) as Hw.
    pose proof (Encode_pass_advanced _ _ _ Hw) as Hp. cbv zeta in Hp.
    rewrite frames_of_whole in Hp.
    set (frames := Z.min (Z.of_nat k) 4096) in *.
    assert (Hf : 1 <= frames <= Z.of_nat k) by (subst frames k; lia).
    assert (Hbl : size_t (4 * Z.of_nat k - frames * bytes_per_frame)
                  = 4 * Z.of_nat (k - Z.to_nat frames)).
    { unfold bytes_per_frame. rewrite size_t_small; lia. }
    rewrite Hbl in Hp.
    pose proof (never_fails_step _ _ _ _ _ _ Hnf Hnz Hp) as Hnf'.
    destruct (IH (k - Z.to_nat frames)%nat ltac:(lia) nbr _ _ ltac:(lia) Hnf')
      as (fuel & w' & Hrun).
    exists (S fuel), w'. rewrite Encode_loop_S.
    apply Z.eqb_neq in Hnz. rewrite Hnz, Hp. exact Hrun.
Qed.

(** *** Inputs with a partial frame at the end *)

Lemma Encode_loop_partial_frame fuel : forall nbr stream bl w,
  bl mod bytes_per_frame <> 0 ->
  never_fails_from stream bl w ->
  Encode_loop fuel nbr stream bl w = None.
Proof.
  induction fuel as [|fuel IH]; intros nbr stream bl w Hrem Hnf; [reflexivity|].
  assert (Hnz : bl <> 0) by (intros ->; now apply Hrem).
  pose proof (never_fails_head _ _ _ Hnf Hnz) as Hw.
  pose proof (Encode_pass_advanced _ _ _ Hw) as Hp. cbv zeta in Hp.
  rewrite Encode_loop_S. apply Z.eqb_neq in Hnz. rewrite Hnz, Hp.
  apply IH.
  - unfold size_t, SIZE_MOD.
    rewrite Z.mod_mod_divide by (exists (2 ^ 62); reflexivity).
    rewrite Z.mul_comm. unfold bytes_per_frame in *.
    rewrite <- Zminus_mod_idemp_r, Z.mul_comm, Z_mod_mult, Z.sub_0_r.
    exact Hrem.
  - apply Z.eqb_neq in Hnz.
    exact (never_fails_step _ _ _ _ _ _ Hnf Hnz Hp).
Qed.

Lemma Encode_partial_frame_diverges stream w :
  live w = true ->
  Z.of_nat (List.length stream) mod bytes_per_frame <> 0 ->
  encode_never_fails stream w ->
  forall fuel, Encode fuel stream w = None.
Proof.
  intros Hl Hrem Hnf fuel. destruct (live_handle w Hl) as [e He].
  unfold Encode. rewrite He. now apply Encode_loop_partial_frame.
Qed.

(** *** Error returns *)

Lemma Encode_loop_negative fuel : forall nbr stream bl w r w',
  0 <= nbr <= SSIZE_MAX ->
  Encode_loop fuel nbr stream bl w = Some (r, w') ->
  r < 0 ->
  exists n s b wn,
    Encode_passes n stream bl w = Some (s, b, wn)
    /\ b <> 0 /\ Encode_written s b wn < 0.
Proof.
  induction fuel as [|fuel IH]; intros nbr stream bl w r w' Hn H Hr;
    [discriminate|].
  simpl in H. destruct (bl =? 0) eqn:Hz.
  - apply Z.eqb_eq in Hz. subst bl. inversion H; subst.
    rewrite Z.sub_0_r, size_t_small, ssize_t_small in Hr;
      unfold SSIZE_MAX, SIZE_MOD in *; lia.
  - apply Z.eqb_neq in Hz.
    destruct (Encode_pass_inv stream bl w) as [[Hw _]|[Hw [w2 Hp]]].
    + exists O, stream, bl, w. now repeat split.
    + rewrite Hp in H.
      destruct (IH _ _ _ _ _ _ Hn H Hr) as (n & s & b & wn & Hps & Hb & Hneg).
      exists (S n), s, b, wn. repeat split; try assumption.
      rewrite Encode_passes_S. apply Z.eqb_neq in Hz. now rewrite Hz, Hp.
Qed.

(** *** The properties of [Encode] *)

(** C10.  An input of whole frames (its length a multiple of 4, zero
    included, and within [ssize_t]), a live handle and no negative result
    from any pass: the loop ends, and [Encode] returns the whole length of
    the input. *)
Theorem Encode_whole_frames stream w :
  live w = true ->
  Z.of_nat (List.length stream) mod bytes_per_frame = 0 ->
  Z.of_nat (List.length stream) <= SSIZE_MAX ->
  encode_never_fails stream w ->
  exists fuel w',
    Encode fuel stream w = Some (Z.of_nat (List.length stream), w').
Proof.
  intros Hl Hmod Hmax Hnf. destruct (live_handle w Hl) as [e He].
  unfold Encode, encode_never_fails in *. rewrite He.
  remember (Z.of_nat (List.length stream)) as len eqn:Elen.
  assert (Hpos : 0 <= len) by lia.
  assert (Hlen : len = 4 * Z.of_nat (Z.to_nat (len / 4))).
  { unfold bytes_per_frame in Hmod. change (2 * 2) with 4 in Hmod.
    pose proof (Z.div_mod len 4 ltac:(lia)) as Hd.
    rewrite Z2Nat.id by (apply Z.div_pos; lia).
    rewrite Hmod, Z.add_0_r in Hd. exact Hd. }
  assert (Hlt : 4 * Z.of_nat (Z.to_nat (len / 4)) < SIZE_MOD).
  { rewrite <- Hlen. unfold SSIZE_MAX, SIZE_MOD in *. lia. }
  rewrite Hlen in Hnf.
  destruct (Encode_loop_whole_frames _ len stream w Hlt Hnf)
    as (fuel & w' & Hrun).
  exists fuel, w'. rewrite Hlen at 2. rewrite Hrun. f_equal. f_equal.
  rewrite Z.sub_0_r, size_t_small, ssize_t_small;
    unfold SSIZE_MAX, SIZE_MOD in *; lia.
Qed.

(** C2, amended.  An input of exactly N whole frames, N <= 4096, with a
    live handle.  For N = 0 the body of the loop is not entered and 0 is
    returned with nothing done.  For N >= 1, when the encoder's result is
    not negative, [Encode] returns N * 4 after exactly one pass: one call
    of the encoder on all N frames and one write. *)
Theorem Encode_single_batch stream w N :
  live w = true ->
  Z.of_nat (List.length stream) = N * bytes_per_frame ->
  N <= 4096 ->
  (N = 0 -> Encode 1 stream w = Some (0, w))
  /\ (1 <= N ->
      0 <= Encode_written stream (N * bytes_per_frame) w ->
      exists w' written,
        Encode 2 stream w = Some (N * bytes_per_frame, w')
        /\ Encode 1 stream w = None
        /\ trace w' =
             trace w ++ [LameOut (lame_encode_buffer_interleaved
                                    stream N sizeof_m_buffer) written;
                         EvWrite (m_buffer w') written]
        /\ encode_calls (trace w') = S (encode_calls (trace w))).
Proof.
  intros Hl Hlen HN. destruct (live_handle w Hl) as [e He].
  unfold Encode. rewrite He, Hlen. split.
  - intros ->. reflexivity.
  - intros H1 Hw.
    pose proof (Encode_pass_advanced _ _ _ Hw) as Hp. cbv zeta in Hp.
    assert (Hf : Z.min (N * bytes_per_frame / bytes_per_frame) 4096 = N).
    { unfold bytes_per_frame. rewrite Z.div_mul; lia. }
    rewrite Hf in Hp.
    assert (Hnz : (N * bytes_per_frame =? 0) = false).
    { apply Z.eqb_neq. unfold bytes_per_frame. lia. }
    assert (Hbl : size_t (N * bytes_per_frame - N * bytes_per_frame) = 0).
    { now rewrite Z.sub_diag. }
    rewrite Hbl in Hp.
    assert (Hwr : Encode_written stream (N * bytes_per_frame) w
                  = fst (out (lame_encode_buffer_interleaved
                                stream N sizeof_m_buffer) w)).
    { unfold Encode_written. now rewrite Hf. }
    set (op := lame_encode_buffer_interleaved stream N sizeof_m_buffer) in *.
    set (w1 := snd (out op w)) in *.
    exists (record (EvWrite (m_buffer w1) (fst (out op w))) w1),
           (fst (out op w)).
    rewrite Hwr in Hp. rewrite !Encode_loop_S, Hnz, Hp.
    repeat split.
    + rewrite Encode_loop_S. change (0 =? 0) with true. cbv iota.
      rewrite Z.sub_0_r, size_t_small, ssize_t_small;
        unfold SSIZE_MAX, SIZE_MOD, bytes_per_frame; try lia.
      reflexivity.
    + unfold record. simpl. subst w1.
      now rewrite (out_trace_live _ _ Hl), <- app_assoc.
    + unfold record. simpl. subst w1.
      rewrite (out_trace_live _ _ Hl), !encode_calls_app.
      unfold encode_calls. simpl. lia.
Qed.


End EncodeFacts.

(** ** [Finish] *)

Section FinishFacts.

Context {enc os : Type} {lame : Lame enc}.

Implicit Types (w : World enc os).

Lemma Finish_dead w : m_encoder w = None -> Finish w = (false, w).
Proof. intros He. unfold Finish, bind, get. now rewrite He. Qed.

(** What [Finish] does with a live handle, call by call. *)
Lemma Finish_live w e :
  m_encoder w = Some e ->
  let '(e1, b1, r1) := lame_out (lame_encode_flush sizeof_m_buffer) e (m_buffer w) in
  let '(e2, b2, r2) := lame_out (lame_get_id3v1_tag sizeof_m_buffer) e1 b1 in
  let '(e3, b3, r3) := lame_out (lame_get_lametag_frame sizeof_m_buffer) e2 b2 in
  Finish w =
    if r1 <? 0 then
      (false,
       mkWorld (Some e1) (m_audio_pos w) b1 (m_preset w) (m_bitrate w) (libc w)
               (trace w ++ [LameOut (lame_encode_flush sizeof_m_buffer) r1]))
    else
      (true,
       mkWorld (Some e3) (m_audio_pos w) b3 (m_preset w) (m_bitrate w) (libc w)
               (trace w
                ++ ([LameOut (lame_encode_flush sizeof_m_buffer) r1;
                     EvWrite b1 r1;
                     LameOut (lame_get_id3v1_tag sizeof_m_buffer) r2]
                    ++ (if 0 <? int r2 then [EvWrite b2 (int r2)] else []))
                ++ LameOut (lame_get_lametag_frame sizeof_m_buffer) r3
                   :: (if negb (m_audio_pos w =? 0) && (0 <? int r3)
                       then [EvSeek (m_audio_pos w) SEEK_SET;
                             EvWrite b3 (int r3)]
                       else []))).
Proof.
  intros He.
  destruct (lame_out (lame_encode_flush sizeof_m_buffer) e (m_buffer w))
    as [[e1 b1] r1] eqn:E1.
  destruct (lame_out (lame_get_id3v1_tag sizeof_m_buffer) e1 b1)
    as [[e2 b2] r2] eqn:E2.
  destruct (lame_out (lame_get_lametag_frame sizeof_m_buffer) e2 b2)
    as [[e3 b3] r3] eqn:E3.
  unfold Finish, bind, get, out, Write, Seek, emit, ret, record.
  destruct (r1 <? 0) eqn:C1; destruct (0 <? int r2) eqn:C2;
    destruct (negb (m_audio_pos w =? 0) && (0 <? int r3)) eqn:C3;
    repeat (progress (simpl; rewrite ?He, ?E1, ?E2, ?E3, ?C1, ?C2, ?C3));
    repeat rewrite <- app_assoc; reflexivity.
Qed.

(** C6.  [Finish] returns [true] exactly when the handle is present and
    the flush does not report a negative result.  With an absent handle
    nothing is done; after a negative flush result the trace ends with the
    flush call, so neither the trailing tag nor the summary frame is
    fetched or written. *)
Theorem Finish_success w :
  (fst (Finish w) = true <->
   live w = true /\ 0 <= fst (out (lame_encode_flush sizeof_m_buffer) w))
  /\ (live w = false -> Finish w = (false, w))
  /\ (live w = true ->
      fst (out (lame_encode_flush sizeof_m_buffer) w) < 0 ->
      fst (Finish w) = false
      /\ trace (snd (Finish w)) =
           trace w ++ [LameOut (lame_encode_flush sizeof_m_buffer)
                         (fst (out (lame_encode_flush sizeof_m_buffer) w))]).
Proof.
  unfold live. destruct (m_encoder w) as [e|] eqn:He.
  - pose proof (Finish_live w e He) as HF.
    rewrite (out_live _ w e He). simpl.
    destruct (lame_out (lame_encode_flush sizeof_m_buffer) e (m_buffer w))
      as [[e1 b1] r1].
    destruct (lame_out (lame_get_id3v1_tag sizeof_m_buffer) e1 b1)
      as [[e2 b2] r2].
    destruct (lame_out (lame_get_lametag_frame sizeof_m_buffer) e2 b2)
      as [[e3 b3] r3].
    rewrite HF. simpl.
    destruct (r1 <? 0) eqn:Hr; simpl.
    + apply Z.ltb_lt in Hr.
      split; [split; [discriminate|intros [_ H]; lia]|].
      split; [discriminate|]. intros _ _. split; reflexivity.
    + apply Z.ltb_ge in Hr.
      split; [split; [intros _; split; [reflexivity|exact Hr]|reflexivity]|].
      split; [discriminate|]. intros _ H. lia.
  - rewrite (Finish_dead w He). simpl.
    split; [split; [discriminate|intros [H _]; discriminate]|].
    split; [reflexivity|discriminate].
Qed.


End FinishFacts.

(** ** [ToUtf16] *)

Section ToUtf16Facts.

Context {enc os : Type} {sys : Libc os}.

Implicit Types (w : World enc os).

(** C8.  On a null pointer [ToUtf16] returns null and does nothing, under
    no condition at all: no allocation, no event, the world as it was.  On
    the empty string, when [calloc] grants the block (and [iconv], given
    no input, stores nothing), it returns a buffer of 16 units whose first
    unit is the byte-order mark 0xFEFF, bytes FF FE on a little-endian
    host, and whose next unit is the terminating zero. *)
Theorem ToUtf16_null_and_empty w :
  ToUtf16 None w = (None, w)
  /\ (snd (calloc 8 4 (libc w)) = true ->
      iconv [] 4 = [] ->
      exists dst w',
        ToUtf16 (Some EmptyString) w = (Some dst, w')
        /\ List.length dst = 16%nat
        /\ nth 0 dst 0 = 0xFEFF
        /\ nth 1 dst 1 = 0
        /\ firstn 4 (le_bytes dst) = [0xFF; 0xFE; 0; 0]
        /\ filter is_calloc (trace w') =
             filter is_calloc (trace w) ++ [EvCalloc 8 4 true]).
Proof.
  split; [reflexivity|]. intros Hcalloc Hiconv.
  unfold ToUtf16, bind, sys_calloc, sys_iconv_open, sys_iconv,
    sys_iconv_close, ret, with_libc, record.
  change (strlen EmptyString) with 0.
  change (size_t ((0 + 1) * 4)) with 4.
  change (size_t (4 + 4)) with 8.
  change (list_byte_of_string EmptyString) with (@nil byte).
  rewrite Hiconv.
  destruct (calloc 8 4 (libc w)) as [o1 ok] eqn:Ec.
  simpl in Hcalloc. subst ok. cbn [libc trace].
  destruct (iconv_open "UTF-16LE//TRANSLIT" "UTF-8" o1) as [o2 opened].
  destruct opened; cbn [libc trace];
    eexists; eexists; (split; [reflexivity|]);
    (repeat split; [reflexivity .. |]);
    cbn [trace]; repeat rewrite filter_app; simpl; rewrite ?app_nil_r;
    reflexivity.
Qed.

End ToUtf16Facts.

(** ** [Start] *)

Section StartFacts.

Context {enc os : Type} {lame : Lame enc} {sys : Libc os}.

Variable GetSettingInt : string -> Z.

Implicit Types (w : World enc os) (ok : event -> bool).

Lemma ext_refl ok w : ext ok w w.
Proof.
  repeat split. exists []. split; [now rewrite app_nil_r|reflexivity].
Qed.

Lemma ext_trans ok w0 w1 w2 : ext ok w0 w1 -> ext ok w1 w2 -> ext ok w0 w2.
Proof.
  intros (Hl1 & Hp1 & d1 & Ht1 & Hd1) (Hl2 & Hp2 & d2 & Ht2 & Hd2).
  repeat split; try congruence.
  exists (d1 ++ d2). split.
  - now rewrite Ht2, Ht1, app_assoc.
  - now rewrite forallb_app, Hd1, Hd2.
Qed.

Lemma ext_one ok w w1 ev :
  ok ev = true ->
  live w1 = live w -> m_audio_pos w1 = m_audio_pos w ->
  trace w1 = trace w ++ [ev] ->
  ext ok w w1.
Proof.
  intros Hok Hl Hp Ht. repeat split; try assumption.
  exists [ev]. split; [assumption|]. simpl. now rewrite Hok.
Qed.

Lemma no_sink_filter d : forallb no_sink d = true -> sink_events d = [].
Proof.
  unfold sink_events, no_sink. induction d as [|ev d IH]; simpl; [trivial|].
  intros H. apply andb_prop in H. destruct H as [H1 H2].
  destruct (is_sink ev); [discriminate|]. now apply IH.
Qed.

Lemma no_genre_filter d :
  forallb no_genre d = true -> filter is_set_genre d = [].
Proof.
  unfold no_genre. induction d as [|ev d IH]; simpl; [trivial|].
  intros H. apply andb_prop in H. destruct H as [H1 H2].
  destruct (is_set_genre ev); [discriminate|]. now apply IH.
Qed.

Lemma admits_no_sink : admits no_sink.
Proof.
  intros ev H. unfold is_inner in H. apply andb_prop in H. apply H.
Qed.

Lemma admits_no_genre : admits no_genre.
Proof.
  intros ev H. unfold is_inner in H. apply andb_prop in H. apply H.
Qed.

(** *** Quiet commands *)

Lemma quiet_ret ok {A : Type} (a : A) :
  quiet ok (ret (enc := enc) (os := os) a).
Proof. intros w. apply ext_refl. Qed.

Lemma quiet_get ok {A : Type} (f : World enc os -> A) : quiet ok (get f).
Proof. intros w. apply ext_refl. Qed.

Lemma quiet_bind ok {A B : Type} (c : M (enc := enc) (os := os) A)
  (k : A -> M B) :
  quiet ok c -> (forall a, quiet ok (k a)) -> quiet ok (bind c k).
Proof.
  intros Hc Hk w. unfold bind. specialize (Hc w).
  destruct (c w) as [a w1]. simpl in Hc.
  eapply ext_trans; [exact Hc|apply Hk].
Qed.

Lemma quiet_if ok {A : Type} (b : bool) (c1 c2 : M (enc := enc) (os := os) A) :
  quiet ok c1 -> quiet ok c2 -> quiet ok (if b then c1 else c2).
Proof. now destruct b. Qed.

Lemma quiet_set_preset ok p : quiet ok (set_preset (enc := enc) (os := os) p).
Proof.
  intros w. repeat split. exists []. simpl. now rewrite app_nil_r.
Qed.

Lemma quiet_set_bitrate ok b :
  quiet ok (set_bitrate (enc := enc) (os := os) b).
Proof.
  intros w. repeat split. exists []. simpl. now rewrite app_nil_r.
Qed.

Lemma quiet_ctl ok op :
  (forall r, ok (LameCtl op r) = true) -> quiet ok (ctl (os := os) op).
Proof.
  intros Hok w. unfold ctl, ext, live.
  destruct (m_encoder w) as [e|] eqn:He.
  - destruct (lame_ctl op e) as [e' r]. simpl.
    repeat split. exists [LameCtl op r]. simpl. now rewrite Hok.
  - simpl. rewrite He. repeat split. exists []. now rewrite app_nil_r.
Qed.

Lemma quiet_ctl_inner ok op :
  admits ok -> (forall r, is_inner (LameCtl op r) = true) ->
  quiet ok (ctl (os := os) op).
Proof. intros Ha Hi. apply quiet_ctl. intros r. apply Ha, Hi. Qed.

Lemma quiet_libc ok (o : os) ev w :
  ok ev = true -> ext ok w (with_libc o ev w).
Proof. intros Hok. now apply (ext_one ok w _ ev). Qed.

Lemma quiet_ToUtf16 ok src : admits ok -> quiet ok (ToUtf16 (enc := enc) src).
Proof.
  intros Ha. destruct src as [s|]; [|apply quiet_ret].
  unfold ToUtf16. apply quiet_bind.
  - intros w. unfold sys_calloc.
    destruct (calloc _ _ (libc w)) as [o b]. simpl.
    apply quiet_libc. now apply Ha.
  - intros [|]; [|apply quiet_ret]. apply quiet_bind.
    + intros w. unfold sys_iconv_open.
      destruct (iconv_open _ _ (libc w)) as [o b]. simpl.
      apply quiet_libc. now apply Ha.
    + intros [|]; [|apply quiet_ret]. apply quiet_bind.
      * intros w. unfold sys_iconv. simpl.
        apply (ext_one ok w _ (EvIconv (list_byte_of_string s)
                                 (size_t ((strlen s + 1) * 4))));
          try reflexivity. now apply Ha.
      * intros us. apply quiet_bind; [|intros; apply quiet_ret].
        intros w. unfold sys_iconv_close. simpl.
        apply quiet_libc. now apply Ha.
Qed.

Lemma quiet_sys_free ok p : admits ok -> quiet ok (sys_free (enc := enc) p).
Proof.
  intros Ha w. unfold sys_free. simpl. apply quiet_libc. now apply Ha.
Qed.

Lemma quiet_set_textinfo ok id s0 :
  admits ok -> quiet ok (set_textinfo (enc := enc) id s0).
Proof.
  intros Ha. unfold set_textinfo. apply quiet_bind.
  - now apply quiet_ToUtf16.
  - intros v. apply quiet_bind.
    + now apply quiet_ctl_inner.
    + intros _. now apply quiet_sys_free.
Qed.

Lemma quiet_set_comment ok s0 :
  admits ok -> quiet ok (set_comment (enc := enc) s0).
Proof.
  intros Ha. unfold set_comment. apply quiet_bind.
  - now apply quiet_ToUtf16.
  - intros v. apply quiet_bind.
    + now apply quiet_ctl_inner.
    + intros _. now apply quiet_sys_free.
Qed.

(** Running a quiet command in front of a continuation. *)
Lemma bind_ext ok {A B : Type} (c : M (enc := enc) (os := os) A)
  (k : A -> M B) w0 w
  (Q : B * World enc os -> Prop) :
  quiet ok c -> ext ok w0 w ->
  (forall a w1, ext ok w0 w1 -> Q (k a w1)) ->
  Q (bind c k w).
Proof.
  intros Hc Hext Hk. unfold bind. specialize (Hc w).
  destruct (c w) as [a w1]. apply Hk. eapply ext_trans; eassumption.
Qed.

Lemma ctl_live op w :
  live w = true ->
  live (snd (ctl op w)) = true
  /\ m_audio_pos (snd (ctl op w)) = m_audio_pos w
  /\ trace (snd (ctl op w)) = trace w ++ [LameCtl op (fst (ctl op w))].
Proof.
  intros Hl. destruct (live_handle w Hl) as [e He].
  unfold ctl. rewrite He. destruct (lame_ctl op e) as [e' r]. now simpl.
Qed.

Create HintDb quiet.

#[local] Hint Resolve quiet_ret quiet_get quiet_bind quiet_if
  quiet_set_preset quiet_set_bitrate quiet_set_textinfo quiet_set_comment
  admits_no_sink admits_no_genre : quiet.

#[local] Hint Extern 1 (quiet _ (ctl _)) =>
  first [ assumption | apply quiet_ctl; intros; reflexivity ] : quiet.

(** Peel the quiet command at the head of the program off; the
    hypothesis on the world reached so far is carried along. *)
Ltac step ok :=
  match goal with
  | Hext : ext ok ?w0 ?wc |- context [bind ?c ?k ?wc] =>
      pattern (bind c k wc);
      eapply (bind_ext ok _ _ w0 wc);
      [ solve [auto 20 with quiet]
      | exact Hext
      | cbv beta; clear Hext; try clear wc;
        let a := fresh "a" in
        let wn := fresh "wn" in
        intros a wn Hext ]
  end.

(** C3.  With a live handle, a tag whose channel count is not 2 or whose
    sample width is not 16 makes [Start] fail: it returns [false], the
    only thing it does is to log the error, so nothing reaches the sink,
    and the object (audio position, handle, buffer) is as before. *)
Theorem Start_rejects_format tag w :
  live w = true ->
  GetChannels tag <> 2 \/ GetBitsPerSample tag <> 16 ->
  exists w',
    Start GetSettingInt tag w = (false, w')
    /\ trace w' =
         trace w ++ [EvLog ADDON_LOG_ERROR "Invalid input format to encode"]
    /\ sink_events (trace w') = sink_events (trace w)
    /\ m_audio_pos w' = m_audio_pos w
    /\ m_encoder w' = m_encoder w
    /\ m_buffer w' = m_buffer w.
Proof.
  intros Hl Hfmt. destruct (live_handle w Hl) as [e He].
  assert (Hc : negb (GetChannels tag =? 2)
               || negb (GetBitsPerSample tag =? 16) = true).
  { destruct Hfmt as [H|H]; apply Z.eqb_neq in H; rewrite H;
      [reflexivity|apply orb_true_r]. }
  unfold Start, bind, get. rewrite He, Hc.
  eexists. split; [reflexivity|]. simpl.
  split; [reflexivity|]. split; [|repeat split; assumption].
  unfold sink_events. rewrite filter_app. simpl. apply app_nil_r.
Qed.

(** The end of [Start]: fetching the tag and writing it. *)
Lemma Start_tail (v2 : bool) w w' :
  live w = true ->
  bind (if v2 then out (lame_get_id3v2_tag sizeof_m_buffer)
        else out (lame_get_id3v1_tag sizeof_m_buffer))
       (fun size =>
          bind (if negb (int size =? 0)
                then bind (Write (size_t (int size)))
                          (fun _ => set_audio_pos (int size))
                else ret tt)
               (fun _ => ret true)) w = (true, w') ->
  let op := if v2 then lame_get_id3v2_tag sizeof_m_buffer
            else lame_get_id3v1_tag sizeof_m_buffer in
  exists e size,
    lame_out op e (m_buffer w) = (fst (lame_out op e (m_buffer w)), size)
    /\ m_encoder w = Some e
    /\ m_encoder w' = Some (fst (fst (lame_out op e (m_buffer w))))
    /\ m_buffer w' = snd (fst (lame_out op e (m_buffer w)))
    /\ trace w' =
         trace w ++ LameOut op size
                    :: (if int size =? 0 then []
                        else [EvWrite (m_buffer w') (size_t (int size))])
    /\ m_audio_pos w' =
         if int size =? 0 then m_audio_pos w else int size.
Proof.
  intros Hl. destruct (live_handle w Hl) as [e He]. intros Hrun op.
  assert (Hop : (if v2 then out (lame_get_id3v2_tag sizeof_m_buffer)
                 else out (lame_get_id3v1_tag sizeof_m_buffer))
                = out (os := os) op) by (now destruct v2).
  rewrite Hop in Hrun. clear Hop.
  unfold bind in Hrun. rewrite (out_live op w e He) in Hrun.
  exists e, (snd (lame_out op e (m_buffer w))).
  destruct (lame_out op e (m_buffer w)) as [[e' buf] size]. simpl in *.
  destruct (int size =? 0); simpl in Hrun; inversion Hrun; subst; simpl;
    repeat split; rewrite <- ?app_assoc; try reflexivity; assumption.
Qed.


Lemma forallb_filter_nil (f : event -> bool) d :
  forallb (fun ev => negb (f ev)) d = true -> filter f d = [].
Proof.
  induction d as [|ev d IH]; simpl; [trivial|].
  intros H. apply andb_prop in H. destruct H as [H1 H2].
  destruct (f ev); [discriminate|]. now apply IH.
Qed.

(** The end of [Start] adds the fetch of the tag and at most a write,
    whatever it returns. *)
Lemma Start_tail_trace ok (v2 : bool) w :
  (forall op r, ok (LameOut op r) = true) ->
  (forall b n, ok (EvWrite b n) = true) ->
  exists d,
    trace (snd (bind (if v2 then out (lame_get_id3v2_tag sizeof_m_buffer)
                      else out (lame_get_id3v1_tag sizeof_m_buffer))
                     (fun size =>
                        bind (if negb (int size =? 0)
                              then bind (Write (size_t (int size)))
                                        (fun _ => set_audio_pos (int size))
                              else ret tt)
                             (fun _ => ret true)) w))
    = trace w ++ d
    /\ forallb ok d = true.
Proof.
  intros Hout Hwrite. unfold bind, out.
  destruct v2; destruct (m_encoder w) as [e|];
    try destruct (lame_out _ e (m_buffer w)) as [[e' buf] size];
    match goal with
    | |- context [int ?z =? 0] => destruct (int z =? 0)
    end; simpl; rewrite <- ?app_assoc;
    first [ eexists; split; [reflexivity|]; simpl;
            rewrite ?Hout, ?Hwrite; reflexivity
          | exists []; split; [now rewrite app_nil_r|reflexivity] ].
Qed.

(** What [Start] does once the genre is assigned: the ID3v2 frames when
    they are asked for, [lame_init_params], and the end above. *)
Lemma Start_rest_trace ok tag (u : unit) w :
  ((GetSettingInt "id3version" =? 2) = true -> admits ok) ->
  (forall r, ok (LameCtl lame_init_params r) = true) ->
  (forall op r, ok (LameOut op r) = true) ->
  (forall b n, ok (EvWrite b n) = true) ->
  exists d,
    trace (snd ((fun _ : unit =>
      bind (if GetSettingInt "id3version" =? 2
            then
              bind (ctl id3tag_add_v2) (fun _ =>
              bind (set_textinfo "TPE1" (GetArtist tag)) (fun _ =>
              bind (set_textinfo "TIT2" (GetTitle tag)) (fun _ =>
              bind (set_textinfo "TPE1" (GetArtist tag)) (fun _ =>
              bind (set_textinfo "TPE2" (GetAlbumArtist tag)) (fun _ =>
              bind (set_textinfo "TALB" (GetAlbum tag)) (fun _ =>
              bind (set_textinfo "TYER" (GetReleaseDate tag)) (fun _ =>
              bind (set_textinfo "TRCK" (to_string (GetTrack tag))) (fun _ =>
              bind (set_textinfo "TCON" (GetGenre tag)) (fun _ =>
              set_comment (GetComment tag))))))))))
            else ret tt)
        (fun _ =>
         bind (ctl lame_init_params) (fun res =>
         if res <? 0 then ret false
         else
           bind (if GetSettingInt "id3version" =? 2
                 then out (lame_get_id3v2_tag sizeof_m_buffer)
                 else out (lame_get_id3v1_tag sizeof_m_buffer))
                (fun size =>
                 bind (if negb (int size =? 0)
                       then bind (Write (size_t (int size)))
                                 (fun _ => set_audio_pos (int size))
                       else ret tt)
                      (fun _ => ret true))))) u w))
    = trace w ++ d
    /\ forallb ok d = true.
Proof.
  intros Hv2 Hinit Hout Hwrite. cbv beta.
  pose proof (ext_refl ok w) as Hext.
  assert (Hq : quiet ok (ctl (os := os) lame_init_params))
    by (now apply quiet_ctl).
  destruct (GetSettingInt "id3version" =? 2) eqn:Ev2.
  - specialize (Hv2 eq_refl).
    assert (Hq2 : quiet ok (ctl (os := os) id3tag_add_v2))
      by (now apply quiet_ctl_inner).
    do 2 step ok.
    match type of Hext with
    | ext _ _ ?wc =>
        destruct (Start_tail_trace ok true wc Hout Hwrite) as (d' & Ht' & Hd')
    end.
    destruct Hext as (_ & _ & d & Ht & Hd).
    match goal with |- context [?a <? 0] => destruct (a <? 0) end.
    + exists d. now split.
    + exists (d ++ d'). split.
      * now rewrite Ht', Ht, app_assoc.
      * now rewrite forallb_app, Hd, Hd'.
  - do 2 step ok.
    match type of Hext with
    | ext _ _ ?wc =>
        destruct (Start_tail_trace ok false wc Hout Hwrite) as (d' & Ht' & Hd')
    end.
    destruct Hext as (_ & _ & d & Ht & Hd).
    match goal with |- context [?a <? 0] => destruct (a <? 0) end.
    + exists d. now split.
    + exists (d ++ d'). split.
      * now rewrite Ht', Ht, app_assoc.
      * now rewrite forallb_app, Hd, Hd'.
Qed.

(** *** The outcomes of [Start] *)

Lemma Start_rejects_format_aux tag w :
  live w = true ->
  GetChannels tag <> 2 \/ GetBitsPerSample tag <> 16 ->
  exists w',
    Start GetSettingInt tag w = (false, w')
    /\ trace w' =
         trace w ++ [EvLog ADDON_LOG_ERROR "Invalid input format to encode"]
    /\ m_audio_pos w' = m_audio_pos w.
Proof.
  intros Hl Hfmt. destruct (live_handle w Hl) as [e He].
  assert (Hc : negb (GetChannels tag =? 2)
               || negb (GetBitsPerSample tag =? 16) = true).
  { destruct Hfmt as [H|H]; apply Z.eqb_neq in H; rewrite H;
      [reflexivity|apply orb_true_r]. }
  unfold Start, bind, get. rewrite He, Hc.
  eexists. split; [reflexivity|]. simpl. now split.
Qed.

Lemma sink_events_app t1 t2 :
  sink_events (t1 ++ t2) = sink_events t1 ++ sink_events t2.
Proof. apply filter_app. Qed.

Lemma bind_run {A B : Type} (c : M (enc := enc) (os := os) A)
  (k : A -> M B) w a w1 :
  c w = (a, w1) -> bind c k w = k a w1.
Proof. intros H. unfold bind. now rewrite H. Qed.

(** the end of [Start] always reports success *)
Lemma tail_returns_true (c : M (enc := enc) (os := os) Z)
  (k : Z -> M (enc := enc) (os := os) unit) w :
  fst (bind c (fun size => bind (k size) (fun _ => ret true)) w) = true.
Proof.
  unfold bind, ret. destruct (c w) as [size w1].
  destruct (k size w1) as [u w2]. reflexivity.
Qed.

(** What [Start] does once the handle and the format are accepted, in
    terms of the result of [lame_init_params]. *)
Lemma Start_accepted tag w :
  live w = true ->
  GetChannels tag = 2 ->
  GetBitsPerSample tag = 16 ->
  let res := Start GetSettingInt tag w in
  let op := if GetSettingInt "id3version" =? 2
            then lame_get_id3v2_tag sizeof_m_buffer
            else lame_get_id3v1_tag sizeof_m_buffer in
  exists d r,
    sink_events d = []
    /\ live (snd res) = true
    /\ ((r < 0
         /\ fst res = false
         /\ trace (snd res) = trace w ++ d ++ [LameCtl lame_init_params r]
         /\ m_audio_pos (snd res) = m_audio_pos w)
        \/ (0 <= r
            /\ fst res = true
            /\ exists size,
                trace (snd res) =
                  trace w ++ d
                  ++ [LameCtl lame_init_params r; LameOut op size]
                  ++ (if int size =? 0 then []
                      else [EvWrite (m_buffer (snd res)) (size_t (int size))])
                /\ m_audio_pos (snd res) =
                     if int size =? 0 then m_audio_pos w else int size)).
Proof.
  intros Hl Hch Hbits res op. subst res.
  destruct (live_handle w Hl) as [e0 He].
  unfold Start.
  rewrite (bind_run (get m_encoder) _ w (m_encoder w) w eq_refl).
  rewrite He, Hch, Hbits. cbn [Z.eqb Pos.eqb negb orb]. cbv beta iota.
  pose proof (ext_refl no_sink w) as Hext.
  do 11 step no_sink.
  destruct Hext as (Hl1 & Hp1 & d & Ht1 & Hd).
  rewrite Hl in Hl1. apply no_sink_filter in Hd.
  destruct (ctl_live lame_init_params wn Hl1) as (Hl2 & Hp2 & Ht2).
  destruct (ctl lame_init_params wn) as [r w2] eqn:Hc.
  rewrite (bind_run _ _ _ _ _ Hc). simpl in Hl2, Hp2, Ht2.
  exists d, r. split; [exact Hd|].
  destruct (r <? 0) eqn:Hr.
  - apply Z.ltb_lt in Hr. unfold ret. simpl.
    split; [exact Hl2|]. left.
    split; [exact Hr|]. split; [reflexivity|]. split; [|congruence].
    now rewrite Ht2, Ht1, <- app_assoc.
  - apply Z.ltb_ge in Hr.
    match goal with
    | |- context [bind ?c ?k w2] =>
        pose proof (tail_returns_true c
          (fun size => if negb (int size =? 0)
                       then bind (Write (size_t (int size)))
                                 (fun _ => set_audio_pos (int size))
                       else ret tt) w2) as Htrue;
        destruct (bind c k w2) as [b w3] eqn:Htail
    end.
    simpl in Htrue. subst b.
    apply Start_tail in Htail; [|exact Hl2].
    destruct Htail as (e & size & _ & _ & He3 & _ & Ht & Hp).
    simpl. split; [unfold live; now rewrite He3|]. right.
    split; [exact Hr|]. split; [reflexivity|].
    exists size. split.
    + rewrite Ht, Ht2, Ht1. fold op. rewrite <- !app_assoc. reflexivity.
    + rewrite Hp, Hp2, Hp1. reflexivity.
Qed.

(** X5.  With a live handle and the format accepted, the result of
    [lame_init_params] alone decides the result of [Start]: nothing is
    written before that call; if its result is negative, [Start] returns
    [false] with that call as the last thing done and the audio position
    untouched; otherwise [Start] returns [true].  Failed allocations and
    conversions on the way do not make [Start] fail. *)
Theorem Start_init_params_decides tag w :
  live w = true ->
  GetChannels tag = 2 ->
  GetBitsPerSample tag = 16 ->
  exists d r after,
    trace (snd (Start GetSettingInt tag w)) =
      trace w ++ d ++ LameCtl lame_init_params r :: after
    /\ sink_events d = []
    /\ (fst (Start GetSettingInt tag w) = true <-> 0 <= r)
    /\ (r < 0 ->
        after = []
        /\ m_audio_pos (snd (Start GetSettingInt tag w)) = m_audio_pos w).
Proof.
  intros Hl Hch Hbits.
  destruct (Start_accepted tag w Hl Hch Hbits)
    as (d & r & Hd & _ & [(Hr & Hres & Ht & Hp)|(Hr & Hres & size & Ht & Hp)]).
  - exists d, r, []. rewrite Hres.
    split; [exact Ht|]. split; [exact Hd|]. split.
    + split; [discriminate|lia].
    + intros _. now split.
  - eexists d, r, _. rewrite Hres.
    split; [exact Ht|]. split; [exact Hd|]. split.
    + split; [intros _; exact Hr|reflexivity].
    + intros Hneg. lia.
Qed.

(** X6.  A [Start] that fails, for whatever reason (no handle, wrong
    format, rejected parameters), has sent nothing to the sink and has
    left the recorded audio position as it was. *)
Theorem Start_failure_is_silent tag w w' :
  Start GetSettingInt tag w = (false, w') ->
  sink_events (trace w') = sink_events (trace w)
  /\ m_audio_pos w' = m_audio_pos w.
Proof.
  intros Hrun. destruct (live w) eqn:Hl.
  - destruct (Z.eq_dec (GetChannels tag) 2) as [Hch|Hch];
      [destruct (Z.eq_dec (GetBitsPerSample tag) 16) as [Hb|Hb]|].
    + destruct (Start_accepted tag w Hl Hch Hb)
        as (d & r & Hd & _ & [(_ & _ & Ht & Hp)|(_ & Hres & _)]);
        rewrite Hrun in *; simpl in *; [|discriminate].
      split; [|exact Hp].
      rewrite Ht, !sink_events_app, Hd. simpl. now rewrite app_nil_r.
    + destruct (Start_rejects_format_aux tag w Hl (or_intror Hb))
        as (w1 & Hrun1 & Ht & Hp).
      rewrite Hrun in Hrun1. inversion Hrun1; subst w1.
      split; [|exact Hp].
      rewrite Ht, sink_events_app. simpl. now rewrite app_nil_r.
    + destruct (Start_rejects_format_aux tag w Hl (or_introl Hch))
        as (w1 & Hrun1 & Ht & Hp).
      rewrite Hrun in Hrun1. inversion Hrun1; subst w1.
      split; [|exact Hp].
      rewrite Ht, sink_events_app. simpl. now rewrite app_nil_r.
  - unfold live in Hl. unfold Start, bind, get in Hrun.
    destruct (m_encoder w); [discriminate|].
    inversion Hrun; subst. now split.
Qed.

(** X7.  With the ID3v1 tag selected, [Start] makes no call of the C
    library at all, whatever its outcome: no allocation, no conversion,
    no release. *)
Theorem Start_legacy_no_libc tag w :
  GetSettingInt "id3version" <> 2 ->
  exists d,
    trace (snd (Start GetSettingInt tag w)) = trace w ++ d
    /\ filter is_libc d = [].
Proof.
  intros Hv1. apply Z.eqb_neq in Hv1.
  unfold Start. unfold bind at 1. unfold get at 1. cbv beta iota.
  destruct (m_encoder w) as [e0|] eqn:He.
  2:{ exists []. simpl. now rewrite app_nil_r. }
  destruct (negb (GetChannels tag =? 2)
            || negb (GetBitsPerSample tag =? 16)).
  { eexists. split; [reflexivity|reflexivity]. }
  pose proof (ext_refl no_libc w) as Hext.
  do 10 step no_libc.
  destruct Hext as (_ & _ & d1 & Ht1 & Hd1).
  destruct (Start_rest_trace no_libc tag tt wn)
    as (d & Ht & Hd); try (intros; reflexivity).
  { rewrite Hv1. discriminate. }
  cbv beta in Ht. exists (d1 ++ d). split.
  - now rewrite Ht, Ht1, app_assoc.
  - apply forallb_filter_nil. unfold no_libc in *.
    now rewrite forallb_app, Hd1, Hd.
Qed.

End StartFacts.

(** ** What [Start] asks of the C library and of the tagger *)

Section StartTraces.

Context {enc os : Type} {lame : Lame enc} {sys : Libc os}.

Variable GetSettingInt : string -> Z.

Context {X : Type} (g : event -> list X).

Implicit Types (w : World enc os) (P : list X -> Prop).

Lemma emits_ret P {A : Type} (a : A) :
  P [] -> emits g P (ret (enc := enc) (os := os) a).
Proof.
  intros HP w Hl. split; [exact Hl|].
  exists []. split; [now rewrite app_nil_r|exact HP].
Qed.

Lemma emits_bind P1 P2 P {A B : Type} (c : M (enc := enc) (os := os) A)
  (k : A -> M B) :
  emits g P1 c ->
  (forall a, emits g P2 (k a)) ->
  (forall l1 l2, P1 l1 -> P2 l2 -> P (l1 ++ l2)) ->
  emits g P (bind c k).
Proof.
  intros Hc Hk HP w Hl. unfold bind.
  destruct (Hc w Hl) as (Hl1 & d1 & Ht1 & HP1).
  destruct (c w) as [a w1]. simpl in *.
  destruct (Hk a w1 Hl1) as (Hl2 & d2 & Ht2 & HP2).
  split; [exact Hl2|]. exists (d1 ++ d2). split.
  - now rewrite Ht2, Ht1, app_assoc.
  - rewrite flat_map_app. now apply HP.
Qed.

Lemma emits_bind_eq l1 l2 l {A B : Type} (c : M (enc := enc) (os := os) A)
  (k : A -> M B) :
  emits g (eq l1) c ->
  (forall a, emits g (eq l2) (k a)) ->
  l = l1 ++ l2 ->
  emits g (eq l) (bind c k).
Proof.
  intros Hc Hk ->. apply (emits_bind (eq l1) (eq l2)); try assumption.
  intros x y <- <-. reflexivity.
Qed.

Lemma emits_if P {A : Type} (b : bool) (c1 c2 : M (enc := enc) (os := os) A) :
  emits g P c1 -> emits g P c2 -> emits g P (if b then c1 else c2).
Proof. now destruct b. Qed.

Lemma emits_ctl P op :
  (forall r, P (g (LameCtl op r) ++ [])) -> emits g P (ctl (os := os) op).
Proof.
  intros HP w Hl. destruct (live_handle w Hl) as [e He].
  unfold ctl. rewrite He. destruct (lame_ctl op e) as [e' r]. simpl.
  split; [reflexivity|]. exists [LameCtl op r]. split; [reflexivity|].
  simpl. apply HP.
Qed.

Lemma emits_out P op :
  (forall r, P (g (LameOut op r) ++ [])) -> emits g P (out (os := os) op).
Proof.
  intros HP w Hl. destruct (live_handle w Hl) as [e He].
  unfold out. rewrite He.
  destruct (lame_out op e (m_buffer w)) as [[e' buf] r]. simpl.
  split; [reflexivity|]. exists [LameOut op r]. split; [reflexivity|].
  simpl. apply HP.
Qed.

Lemma emits_emit P ev :
  P (g ev ++ []) -> emits g P (emit (enc := enc) (os := os) ev).
Proof.
  intros HP w Hl. simpl. split; [exact Hl|].
  exists [ev]. split; [reflexivity|]. simpl. exact HP.
Qed.

Lemma emits_Write P len :
  (forall buf, P (g (EvWrite buf len) ++ [])) ->
  emits g P (Write (enc := enc) (os := os) len).
Proof. intros HP w Hl. unfold Write. now apply emits_emit. Qed.

Lemma emits_set_audio_pos P pos :
  P [] -> emits g P (set_audio_pos (enc := enc) (os := os) pos).
Proof.
  intros HP w Hl. simpl. split; [exact Hl|].
  exists []. split; [now rewrite app_nil_r|exact HP].
Qed.

(** The events of one wide-text frame, by the outcome of the allocation
    and of the opening of the conversion; [mk] is the call that attaches
    the value. *)
Lemma frame_trace (mk : option (list Z) -> lame_op) s0 w :
  live w = true ->
  let c := bind (ToUtf16 (Some s0))
                (fun value => bind (ctl (mk value))
                                   (fun _ => sys_free value)) in
  live (snd (c w)) = true
  /\ ((exists n src avail value r,
         trace (snd (c w)) = trace w ++
           [EvCalloc n 4 true;
            EvIconvOpen "UTF-16LE//TRANSLIT" "UTF-8" true;
            EvIconv src avail; EvIconvClose;
            LameCtl (mk (Some value)) r; EvFree false])
      \/ (exists n value r,
            trace (snd (c w)) = trace w ++
              [EvCalloc n 4 true;
               EvIconvOpen "UTF-16LE//TRANSLIT" "UTF-8" false;
               LameCtl (mk (Some value)) r; EvFree false])
      \/ (exists n r,
            trace (snd (c w)) = trace w ++
              [EvCalloc n 4 false; LameCtl (mk None) r; EvFree true])).
Proof.
  intros Hl c. subst c. destruct (live_handle w Hl) as [e He].
  unfold ToUtf16, bind, sys_calloc, sys_iconv_open,
    sys_iconv, sys_iconv_close, sys_free, ctl, ret, with_libc, record.
  destruct (calloc _ 4 (libc w)) as [o1 [|]]; cbn [libc trace m_encoder].
  - destruct (iconv_open _ _ o1) as [o2 [|]];
      cbn [libc trace m_encoder fst snd]; rewrite He;
      match goal with
      | |- context [lame_ctl ?op e] => destruct (lame_ctl op e) as [e' r]
      end; cbn [libc trace m_encoder fst snd live];
      (split; [reflexivity|]).
    + left. do 5 eexists. rewrite <- !app_assoc. reflexivity.
    + right. left. do 3 eexists. rewrite <- !app_assoc. reflexivity.
  - rewrite He.
    match goal with
    | |- context [lame_ctl ?op e] => destruct (lame_ctl op e) as [e' r]
    end. cbn [libc trace m_encoder fst snd live].
    split; [reflexivity|].
    right. right. do 2 eexists. rewrite <- !app_assoc. reflexivity.
Qed.

(** one frame, seen through [g] *)
Lemma emits_frame P (mk : option (list Z) -> lame_op) s0 :
  (forall n src avail value r,
     P (flat_map g [EvCalloc n 4 true;
                    EvIconvOpen "UTF-16LE//TRANSLIT" "UTF-8" true;
                    EvIconv src avail; EvIconvClose;
                    LameCtl (mk (Some value)) r; EvFree false])) ->
  (forall n value r,
     P (flat_map g [EvCalloc n 4 true;
                    EvIconvOpen "UTF-16LE//TRANSLIT" "UTF-8" false;
                    LameCtl (mk (Some value)) r; EvFree false])) ->
  (forall n r,
     P (flat_map g [EvCalloc n 4 false; LameCtl (mk None) r; EvFree true])) ->
  emits g P (bind (ToUtf16 (enc := enc) (Some s0))
                  (fun value => bind (ctl (mk value))
                                     (fun _ => sys_free value))).
Proof.
  intros H1 H2 H3 w Hl.
  destruct (frame_trace mk s0 w Hl) as (Hl' & Hcase).
  split; [exact Hl'|].
  destruct Hcase as [(n & src & avail & value & r & Ht)
                    |[(n & value & r & Ht)|(n & r & Ht)]];
    eexists; (split; [exact Ht|]); auto.
Qed.

End StartTraces.

Section StartResources.

Context {enc os : Type} {lame : Lame enc} {sys : Libc os}.

Variable GetSettingInt : string -> Z.

Implicit Types (w : World enc os).

Lemma released_app l1 l2 :
  released l1 -> released l2 -> released (l1 ++ l2).
Proof. induction 1; intros H2; simpl; try constructor; auto. Qed.

Ltac emits_released :=
  repeat first
    [ apply emits_ret; constructor
    | apply emits_set_audio_pos; constructor
    | apply emits_ctl; intros; simpl; constructor
    | apply emits_out; intros; simpl; constructor
    | apply emits_Write; intros; simpl; constructor
    | apply emits_emit; simpl; constructor
    | apply emits_frame; intros; simpl; repeat constructor
    | apply emits_if
    | apply emits_bind with (P1 := released) (P2 := released);
      [ | intros ? | exact released_app ] ].

(** X8.  Whatever its outcome, [Start] gives back to the C library all it
    takes.  All its calls of [calloc], [iconv_open], [iconv],
    [iconv_close] and [free], in order, fall into rounds of three kinds:
    a granted block, a descriptor opened, one conversion, the descriptor
    closed, the block freed; a granted block, a descriptor that could not
    be opened, the block freed; a refused allocation followed at once by
    the [free] of the null pointer.  So every block is released before
    the next one is asked for, every descriptor is closed while its block
    is held, and [free] gets the null pointer after a refused allocation
    and nowhere else. *)
Theorem Start_releases_resources tag w :
  exists d,
    trace (snd (Start GetSettingInt tag w)) = trace w ++ d
    /\ released (flat_map resource_of d).
Proof.
  destruct (live w) eqn:Hl.
  - destruct (live_handle w Hl) as [e He].
    assert (Hem : emits resource_of released (Start GetSettingInt tag)).
    { unfold Start, set_textinfo, set_comment, Log.
      apply emits_bind with (P1 := released) (P2 := released);
        [ intros w0 Hl0; split; [exact Hl0|];
          exists []; split; [simpl; now rewrite app_nil_r|constructor]
        | intros [e0|]; emits_released
        | exact released_app ].
      }
    destruct (Hem w Hl) as (_ & d & Ht & Hd). exists d. now split.
  - unfold live in Hl. unfold Start, bind, get.
    destruct (m_encoder w); [discriminate|].
    exists []. simpl. rewrite app_nil_r. split; [reflexivity|constructor].
Qed.

Ltac emits_frames :=
  repeat first
    [ apply emits_ret; reflexivity
    | apply emits_set_audio_pos; reflexivity
    | apply emits_ctl; intros; simpl; reflexivity
    | apply emits_out; intros; simpl; reflexivity
    | apply emits_Write; intros; simpl; reflexivity
    | apply emits_frame; intros; simpl; reflexivity
    | apply emits_if
    | eapply emits_bind_eq; [ | intros ? | ] ].

(** X9.  With the ID3v2 tag selected, a [Start] that accepts the format
    attaches the text frames TPE1, TIT2, TPE1 (again), TPE2, TALB, TYER,
    TRCK, TCON and then the comment, in this order and each exactly once
    more, whatever the allocations and [lame_init_params] do. *)
Theorem Start_v2_frames tag w :
  live w = true ->
  GetChannels tag = 2 ->
  GetBitsPerSample tag = 16 ->
  GetSettingInt "id3version" = 2 ->
  exists d,
    trace (snd (Start GetSettingInt tag w)) = trace w ++ d
    /\ flat_map frame_of d =
         [TextFrame "TPE1"; TextFrame "TIT2"; TextFrame "TPE1";
          TextFrame "TPE2"; TextFrame "TALB"; TextFrame "TYER";
          TextFrame "TRCK"; TextFrame "TCON"; CommentFrame].
Proof.
  intros Hl Hch Hbits Hv2. apply Z.eqb_eq in Hv2.
  destruct (live_handle w Hl) as [e He].
  unfold Start.
  rewrite (bind_run (get m_encoder) _ w (m_encoder w) w eq_refl).
  rewrite He, Hch, Hbits, Hv2. cbn [Z.eqb Pos.eqb negb orb]. cbv beta iota.
  unfold set_textinfo, set_comment.
  match goal with
  | |- exists d, trace (snd (?c w)) = _ /\ _ =>
      assert (Hem : exists l, emits frame_of (eq l) c
                              /\ l = [TextFrame "TPE1"; TextFrame "TIT2";
                                      TextFrame "TPE1"; TextFrame "TPE2";
                                      TextFrame "TALB"; TextFrame "TYER";
                                      TextFrame "TRCK"; TextFrame "TCON";
                                      CommentFrame])
  end.
  { eexists. split; [emits_frames; reflexivity|reflexivity]. }
  destruct Hem as (l & Hem & ->).
  destruct (Hem w Hl) as (_ & d & Ht & Hd). exists d. now split.
Qed.

End StartResources.

(** ** The genre handed to the tagger *)

Section StartGenre.

Context {enc os : Type} {lame : Lame enc} {sys : Libc os}.

Variable GetSettingInt : string -> Z.

Implicit Types (w : World enc os).

Lemma ctl_some op w e :
  m_encoder w = Some e ->
  ctl op w = (snd (lame_ctl op e), after_ctl op e w).
Proof.
  intros He. unfold ctl, after_ctl. rewrite He.
  now destruct (lame_ctl op e).
Qed.

Lemma bind_ret_run {A B : Type} (a : A)
  (k : A -> M (enc := enc) (os := os) B) w :
  bind (ret a) k w = k a w.
Proof. reflexivity. Qed.

Lemma bind_bind_run {A B C : Type} (c : M (enc := enc) (os := os) A)
  (k1 : A -> M B) (k2 : B -> M C) w :
  bind (bind c k1) k2 w = bind c (fun a => bind (k1 a) k2) w.
Proof. unfold bind. destruct (c w) as [a w1]. reflexivity. Qed.

Lemma genre_frame_libc d :
  forallb is_libc d = true -> flat_map genre_frame d = [].
Proof.
  induction d as [|ev d IH]; simpl; [trivial|].
  intros H. apply andb_prop in H. destruct H as [H1 H2].
  rewrite (IH H2). now destruct ev.
Qed.

(** One wide-text frame hands the tagger what [ToUtf16] made of the
    text; all else it does are calls of the C library. *)
Lemma frame_value (mk : option (list Z) -> lame_op) s0 w :
  live w = true ->
  let c := bind (ToUtf16 (Some s0))
                (fun value => bind (ctl (mk value))
                                   (fun _ => sys_free value)) in
  live (snd (c w)) = true
  /\ exists d1 r null,
      trace (snd (c w)) =
        trace w ++ d1
        ++ [LameCtl (mk (fst (ToUtf16 (Some s0) w))) r; EvFree null]
      /\ forallb is_libc d1 = true.
Proof.
  intros Hl c. subst c. destruct (live_handle w Hl) as [e He].
  unfold ToUtf16, bind, sys_calloc, sys_iconv_open,
    sys_iconv, sys_iconv_close, sys_free, ctl, ret, with_libc, record.
  destruct (calloc _ 4 (libc w)) as [o1 [|]]; cbn [libc trace m_encoder].
  - destruct (iconv_open _ _ o1) as [o2 [|]];
      cbn [libc trace m_encoder fst snd]; rewrite He;
      match goal with
      | |- context [lame_ctl ?op e] => destruct (lame_ctl op e) as [e' r]
      end; cbn [libc trace m_encoder fst snd live];
      (split; [reflexivity|]).
    + refine (ex_intro _ [EvCalloc _ _ _; EvIconvOpen _ _ _; EvIconv _ _;
                          EvIconvClose] _).
      do 2 eexists. rewrite <- !app_assoc. split; reflexivity.
    + refine (ex_intro _ [EvCalloc _ _ _; EvIconvOpen _ _ _] _).
      do 2 eexists. rewrite <- !app_assoc. split; reflexivity.
  - rewrite He.
    match goal with
    | |- context [lame_ctl ?op e] => destruct (lame_ctl op e) as [e' r]
    end. cbn [libc trace m_encoder fst snd live].
    split; [reflexivity|].
    refine (ex_intro _ [EvCalloc _ _ _] _).
    do 2 eexists. rewrite <- !app_assoc. split; reflexivity.
Qed.

Lemma emits_genre_frame s0 :
  emits genre_frame (carries (enc := enc) (os := os) s0)
    (bind (ToUtf16 (enc := enc) (Some s0))
          (fun value => bind (ctl (id3tag_set_textinfo_utf16 "TCON" value))
                             (fun _ => sys_free value))).
Proof.
  intros w Hl.
  destruct (frame_value (id3tag_set_textinfo_utf16 "TCON") s0 w Hl)
    as (Hl' & d1 & r & null & Ht & Hd1).
  split; [exact Hl'|]. eexists. split; [exact Ht|].
  rewrite flat_map_app, (genre_frame_libc _ Hd1).
  exists w. reflexivity.
Qed.

Ltac emits_none :=
  repeat first
    [ apply emits_ret; reflexivity
    | apply emits_set_audio_pos; reflexivity
    | apply emits_ctl; intros; reflexivity
    | apply emits_out; intros; reflexivity
    | apply emits_Write; intros; reflexivity
    | apply emits_frame; intros; reflexivity
    | apply emits_if
    | apply emits_bind_eq with (l1 := []) (l2 := []);
      [ | intros ? | reflexivity ] ].

Ltac skip_frame s0 :=
  apply emits_bind with (P1 := eq []) (P2 := carries (enc := enc) (os := os) s0);
    [ emits_none | intros ? | intros ? ? <- H; exact H ].

(** With the ID3v2 tag selected, what [Start] does once the genre is
    assigned hands the genre of the caller to the tagger, as the text of
    the frame TCON, exactly once. *)
Lemma Start_rest_tcon tag (u : unit) w :
  GetSettingInt "id3version" = 2 ->
  live w = true ->
  exists d,
    trace (snd ((fun _ : unit =>
      bind (if GetSettingInt "id3version" =? 2
            then
              bind (ctl id3tag_add_v2) (fun _ =>
              bind (set_textinfo "TPE1" (GetArtist tag)) (fun _ =>
              bind (set_textinfo "TIT2" (GetTitle tag)) (fun _ =>
              bind (set_textinfo "TPE1" (GetArtist tag)) (fun _ =>
              bind (set_textinfo "TPE2" (GetAlbumArtist tag)) (fun _ =>
              bind (set_textinfo "TALB" (GetAlbum tag)) (fun _ =>
              bind (set_textinfo "TYER" (GetReleaseDate tag)) (fun _ =>
              bind (set_textinfo "TRCK" (to_string (GetTrack tag))) (fun _ =>
              bind (set_textinfo "TCON" (GetGenre tag)) (fun _ =>
              set_comment (GetComment tag))))))))))
            else ret tt)
        (fun _ =>
         bind (ctl lame_init_params) (fun res =>
         if res <? 0 then ret false
         else
           bind (if GetSettingInt "id3version" =? 2
                 then out (lame_get_id3v2_tag sizeof_m_buffer)
                 else out (lame_get_id3v1_tag sizeof_m_buffer))
                (fun size =>
                 bind (if negb (int size =? 0)
                       then bind (Write (size_t (int size)))
                                 (fun _ => set_audio_pos (int size))
                       else ret tt)
                      (fun _ => ret true))))) u w)) = trace w ++ d
    /\ carries (enc := enc) (os := os) (c_str (GetGenre tag)) (flat_map genre_frame d).
Proof.
  intros Hv2 Hl. apply Z.eqb_eq in Hv2. cbv beta. rewrite Hv2.
  unfold set_textinfo, set_comment.
  match goal with
  | |- exists d, trace (snd (?c w)) = _ /\ _ =>
      assert (Hem : emits genre_frame (carries (enc := enc) (os := os) (c_str (GetGenre tag))) c)
  end.
  { apply emits_bind with (P1 := carries (enc := enc) (os := os) (c_str (GetGenre tag)))
                          (P2 := eq []);
      [ | intros ?
        | intros l1 l2 H <-; now rewrite app_nil_r ].
    - do 8 skip_frame (c_str (GetGenre tag)).
      apply emits_bind with (P1 := carries (enc := enc) (os := os) (c_str (GetGenre tag)))
                            (P2 := eq []);
        [ apply emits_genre_frame
        | intros ?; emits_none
        | intros l1 l2 H <-; now rewrite app_nil_r ].
    - emits_none. }
  destruct (Hem w Hl) as (_ & d & Ht & Hd). exists d. now split.
Qed.

Ltac run_ctl :=
  cbv beta;
  match goal with
  | |- context [bind (ctl ?op) ?k ?wc] =>
      rewrite (bind_run (ctl op) k wc _ _ (ctl_some op wc _ eq_refl))
  end.


End StartGenre.

(** ** More on the loop of [Encode] *)

Section EncodeInvariants.

Context {enc os : Type} {lame : Lame enc}.

Implicit Types (w : World enc os) (stream s : list byte).

(** A pass that goes through, with a live handle, spelled out. *)
Lemma Encode_pass_live s bl w s' bl' w' :
  live w = true ->
  Encode_pass s bl w = Advanced s' bl' w' ->
  let frames := Z.min (bl / bytes_per_frame) 4096 in
  s' = skipn (Z.to_nat (frames * bytes_per_frame)) s
  /\ bl' = size_t (bl - frames * bytes_per_frame)
  /\ live w' = true
  /\ m_audio_pos w' = m_audio_pos w
  /\ m_preset w' = m_preset w
  /\ m_bitrate w' = m_bitrate w
  /\ libc w' = libc w
  /\ exists r,
      0 <= r
      /\ trace w' =
           trace w ++ [LameOut (lame_encode_buffer_interleaved
                                  s frames sizeof_m_buffer) r;
                       EvWrite (m_buffer w') r].
Proof.
  intros Hl Hp frames. destruct (live_handle w Hl) as [e He].
  destruct (Encode_pass_inv s bl w) as [[_ [w1 Hf]]|[Hw _]];
    [congruence|].
  pose proof (Encode_pass_advanced _ _ _ Hw) as Ha. cbv zeta in Ha.
  rewrite Ha in Hp. inversion Hp; subst; clear Hp.
  fold frames. unfold Encode_written in *. fold frames in Hw |- *.
  rewrite (out_live _ w e He) in *. simpl in *.
  repeat split.
  exists (snd (lame_out (lame_encode_buffer_interleaved
                           s frames sizeof_m_buffer) e (m_buffer w))).
  split; [exact Hw|]. now rewrite <- app_assoc.
Qed.

Lemma Encode_pass_failed_live s bl w w1 :
  live w = true ->
  Encode_pass s bl w = Failed w1 ->
  live w1 = true
  /\ m_audio_pos w1 = m_audio_pos w
  /\ m_preset w1 = m_preset w
  /\ m_bitrate w1 = m_bitrate w
  /\ libc w1 = libc w
  /\ exists r,
      r < 0
      /\ trace w1 =
           trace w ++ [LameOut (lame_encode_buffer_interleaved
                                  s (Z.min (bl / bytes_per_frame) 4096)
                                  sizeof_m_buffer) r].
Proof.
  intros Hl Hp. destruct (live_handle w Hl) as [e He].
  destruct (Encode_pass_inv s bl w) as [[Hw _]|[_ [w2 Ha]]];
    [|congruence].
  rewrite (Encode_pass_failed _ _ _ Hw) in Hp. inversion Hp; subst; clear Hp.
  unfold Encode_written in Hw.
  rewrite (out_live _ w e He) in *. simpl in *.
  repeat split. eexists. split; [exact Hw|reflexivity].
Qed.

Lemma frames_bounds bl :
  0 <= bl ->
  0 <= Z.min (bl / bytes_per_frame) 4096 <= 4096
  /\ Z.min (bl / bytes_per_frame) 4096 * bytes_per_frame <= bl.
Proof.
  intros Hbl. unfold bytes_per_frame. change (2 * 2) with 4.
  pose proof (Z.div_pos bl 4 Hbl ltac:(lia)).
  pose proof (Z.mul_div_le bl 4 ltac:(lia)). lia.
Qed.

(** The invariant of the loop over every state it reaches. *)
Lemma Encode_passes_inv n : forall s0 bl0 w0 s bl wn,
  live w0 = true ->
  bl0 = Z.of_nat (List.length s0) ->
  bl0 < SIZE_MOD ->
  Encode_passes n s0 bl0 w0 = Some (s, bl, wn) ->
  live wn = true
  /\ bl = Z.of_nat (List.length s)
  /\ 0 <= bl0 - bl
  /\ (bl0 - bl) mod bytes_per_frame = 0
  /\ s = skipn (Z.to_nat (bl0 - bl)) s0
  /\ m_audio_pos wn = m_audio_pos w0
  /\ exists d,
      trace wn = trace w0 ++ d /\ Forall safe_call d /\ encode_pairs d.
Proof.
  induction n as [|n IH]; intros s0 bl0 w0 s bl wn Hl Hlen Hmax Hps.
  - simpl in Hps. inversion Hps; subst; clear Hps.
    rewrite Z.sub_diag.
    repeat split; try reflexivity; try lia; try assumption.
    exists []. rewrite app_nil_r. repeat split; constructor.
  - rewrite Encode_passes_S in Hps.
    destruct (bl0 =? 0); [discriminate|].
    destruct (Encode_pass s0 bl0 w0) as [w1|s1 bl1 w1] eqn:Hp; [discriminate|].
    destruct (Encode_pass_live _ _ _ _ _ _ Hl Hp)
      as (Hs1 & Hbl1 & Hl1 & Hpos1 & _ & _ & _ & r & Hr & Ht1).
    assert (H0 : 0 <= bl0) by (rewrite Hlen; apply Nat2Z.is_nonneg).
    destruct (frames_bounds bl0 H0) as [Hf Hfb].
    remember (Z.min (bl0 / bytes_per_frame) 4096) as frames eqn:Ef.
    assert (Hfpos : 0 <= frames * bytes_per_frame)
      by (unfold bytes_per_frame; lia).
    assert (Hbl1' : bl1 = bl0 - frames * bytes_per_frame).
    { rewrite Hbl1. apply size_t_small. lia. }
    assert (Hlen1 : bl1 = Z.of_nat (List.length s1)).
    { rewrite Hs1, length_skipn, Hbl1'. lia. }
    destruct (IH s1 bl1 w1 s bl wn Hl1 Hlen1 ltac:(lia) Hps)
      as (Hln & Hb & Hge & Hmod & Hsk & Hpos & d & Ht & Hsafe & Hpairs).
    repeat split; try assumption; try congruence; try lia.
    + replace (bl0 - bl) with ((bl1 - bl) + frames * bytes_per_frame) by lia.
      rewrite Z_mod_plus_full. exact Hmod.
    + rewrite Hsk, Hs1, skipn_skipn. f_equal. lia.
    + exists ([LameOut (lame_encode_buffer_interleaved
                         s0 frames sizeof_m_buffer) r;
                EvWrite (m_buffer w1) r] ++ d).
      split; [now rewrite Ht, Ht1, <- app_assoc|]. split.
      * simpl. constructor; [|constructor; [exact I|exact Hsafe]].
        simpl. repeat split; try lia.
      * simpl. now constructor.
Qed.

(** X2.  In every state the loop of [Encode] reaches, [bytes_left] is the
    number of bytes behind the [stream] pointer, the pointer has moved by
    the bytes consumed so far, a whole number of frames, and every call
    of the encoder made so far, as well as the next one, asks for at most
    4096 frames and for no more frames than the buffer still holds. *)
Theorem Encode_calls_in_bounds n stream w s bl wn :
  live w = true ->
  Z.of_nat (List.length stream) < SIZE_MOD ->
  Encode_passes n stream (Z.of_nat (List.length stream)) w = Some (s, bl, wn) ->
  bl = Z.of_nat (List.length s)
  /\ s = skipn (Z.to_nat (Z.of_nat (List.length stream) - bl)) stream
  /\ (Z.of_nat (List.length stream) - bl) mod bytes_per_frame = 0
  /\ (exists d, trace wn = trace w ++ d /\ Forall safe_call d)
  /\ safe_call (LameOut (lame_encode_buffer_interleaved
                           s (Z.min (bl / bytes_per_frame) 4096)
                           sizeof_m_buffer)
                        (Encode_written s bl wn)).
Proof.
  intros Hl Hmax Hps.
  destruct (Encode_passes_inv _ _ _ _ _ _ _ Hl eq_refl Hmax Hps)
    as (_ & Hb & _ & Hmod & Hsk & _ & d & Ht & Hsafe & _).
  repeat split; try assumption.
  - exists d. now split.
  - apply frames_bounds. lia.
  - apply frames_bounds. lia.
  - rewrite <- Hb. apply frames_bounds. lia.
Qed.

Lemma encode_pairs_no_seek d : encode_pairs d -> filter is_seek d = [].
Proof. induction 1; simpl; auto. Qed.

(** What a run of the loop that ends has done. *)
Lemma Encode_loop_effect fuel : forall nbr s bl w r w',
  live w = true ->
  0 <= bl < SIZE_MOD ->
  Encode_loop fuel nbr s bl w = Some (r, w') ->
  live w' = true
  /\ m_audio_pos w' = m_audio_pos w
  /\ m_preset w' = m_preset w
  /\ m_bitrate w' = m_bitrate w
  /\ libc w' = libc w
  /\ exists d,
      trace w' = trace w ++ d
      /\ ((r = ssize_t (size_t (nbr - 0))
           /\ bl mod bytes_per_frame = 0 /\ encode_pairs d)
          \/ (r = -1
              /\ exists d0 op written,
                  d = d0 ++ [LameOut op written]
                  /\ encode_pairs d0
                  /\ is_encode_call (LameOut op written) = true
                  /\ written < 0)).
Proof.
  induction fuel as [|fuel IH]; intros nbr s bl w r w' Hl Hbl Hrun;
    [discriminate|].
  rewrite Encode_loop_S in Hrun. destruct (bl =? 0) eqn:Hz.
  - apply Z.eqb_eq in Hz. subst bl. inversion Hrun; subst; clear Hrun.
    repeat split; try assumption.
    exists []. rewrite app_nil_r. split; [reflexivity|].
    left. repeat split. constructor.
  - destruct (Encode_pass s bl w) as [w1|s1 bl1 w1] eqn:Hp.
    + inversion Hrun; subst; clear Hrun.
      destruct (Encode_pass_failed_live _ _ _ _ Hl Hp)
        as (Hl1 & Hpos & Hpre & Hbit & Hlibc & r & Hr & Ht).
      repeat split; try assumption.
      eexists. split; [exact Ht|]. right. split; [reflexivity|].
      exists [], (lame_encode_buffer_interleaved
                    s (Z.min (bl / bytes_per_frame) 4096) sizeof_m_buffer), r.
      repeat split; [constructor|exact Hr].
    + destruct (Encode_pass_live _ _ _ _ _ _ Hl Hp)
        as (Hs1 & Hbl1 & Hl1 & Hpos1 & Hpre1 & Hbit1 & Hlibc1 & r1 & Hr1 & Ht1).
      destruct (frames_bounds bl ltac:(lia)) as [Hf Hfb].
      remember (Z.min (bl / bytes_per_frame) 4096) as frames eqn:Ef.
      assert (Hfpos : 0 <= frames * bytes_per_frame)
        by (unfold bytes_per_frame; lia).
      assert (Hbl1' : bl1 = bl - frames * bytes_per_frame).
      { rewrite Hbl1. apply size_t_small. lia. }
      destruct (IH nbr s1 bl1 w1 r w' Hl1 ltac:(lia) Hrun)
        as (Hl' & Hpos & Hpre & Hbit & Hlibc & d & Ht & Hcase).
      repeat split; try congruence.
      exists ([LameOut (lame_encode_buffer_interleaved
                          s frames sizeof_m_buffer) r1;
                 EvWrite (m_buffer w1) r1] ++ d).
      split; [now rewrite Ht, Ht1, <- app_assoc|].
      destruct Hcase as [(Hr & Hmod & Hpairs)|(Hr & d0 & op & wr & Hd & Hp0 & Hop & Hwr)].
      * left. repeat split; [exact Hr| |simpl; now constructor].
        replace bl with (bl1 + frames * bytes_per_frame) by lia.
        rewrite Z_mod_plus_full. exact Hmod.
      * right. split; [exact Hr|].
        exists ([LameOut (lame_encode_buffer_interleaved
                            s frames sizeof_m_buffer) r1;
                   EvWrite (m_buffer w1) r1] ++ d0), op, wr.
        rewrite Hd. repeat split; try assumption.
        simpl. now constructor.
Qed.

(** X1.  [Encode] never reports a partial count: when it returns, for an
    input whose length fits [ssize_t], the value is either -1 or the
    whole length of the input, and the whole length is only ever
    returned for an input of whole frames. *)
Theorem Encode_all_or_nothing fuel stream w r w' :
  Z.of_nat (List.length stream) <= SSIZE_MAX ->
  Encode fuel stream w = Some (r, w') ->
  r = -1
  \/ (r = Z.of_nat (List.length stream)
      /\ Z.of_nat (List.length stream) mod bytes_per_frame = 0).
Proof.
  intros Hmax Hrun. unfold Encode in Hrun.
  destruct (m_encoder w) as [e|] eqn:He.
  - assert (Hl : live w = true) by (unfold live; now rewrite He).
    assert (Hr : 0 <= Z.of_nat (List.length stream) < SIZE_MOD)
      by (unfold SSIZE_MAX, SIZE_MOD in *; lia).
    destruct (Encode_loop_effect _ _ _ _ _ _ _ Hl Hr Hrun)
      as (_ & _ & _ & _ & _ & d & _ & [(Hv & Hmod & _)|(Hv & _)]).
    + right. split; [|exact Hmod].
      rewrite Hv, Z.sub_0_r, size_t_small, ssize_t_small;
        unfold SSIZE_MAX, SIZE_MOD in *; lia.
    + now left.
  - inversion Hrun. now left.
Qed.

Lemma encode_run_no_seek e b d e' b' :
  encode_run e b d e' b' -> filter is_seek d = [].
Proof. induction 1; simpl; auto. Qed.

(** One pass, with the context and the buffer spelled out. *)
Lemma Encode_pass_run s bl w e e1 b1 r :
  m_encoder w = Some e ->
  let op := lame_encode_buffer_interleaved
              s (Z.min (bl / bytes_per_frame) 4096) sizeof_m_buffer in
  lame_out op e (m_buffer w) = (e1, b1, r) ->
  (r < 0
   /\ exists w1,
       Encode_pass s bl w = Failed w1
       /\ m_encoder w1 = Some e1 /\ m_buffer w1 = b1
       /\ trace w1 = trace w ++ [LameOut op r])
  \/ (0 <= r
      /\ exists s' bl' w2,
          Encode_pass s bl w = Advanced s' bl' w2
          /\ m_encoder w2 = Some e1 /\ m_buffer w2 = b1
          /\ trace w2 = trace w ++ [LameOut op r; EvWrite b1 r]).
Proof.
  intros He op Hout. unfold Encode_pass. fold op.
  rewrite (out_live op w e He), Hout. cbn [fst snd].
  destruct (r <? 0) eqn:Hr.
  - left. apply Z.ltb_lt in Hr. split; [exact Hr|].
    eexists. repeat split.
  - right. apply Z.ltb_ge in Hr. split; [exact Hr|].
    unfold Write, emit, record. cbn [m_buffer m_encoder trace fst snd].
    do 3 eexists. split; [reflexivity|].
    cbn [m_buffer m_encoder trace]. rewrite <- app_assoc. repeat split.
Qed.

(** What a run of the loop that ends has done, pass by pass. *)
Lemma Encode_loop_run fuel : forall nbr s bl w e r w',
  m_encoder w = Some e ->
  Encode_loop fuel nbr s bl w = Some (r, w') ->
  exists e' d,
    m_encoder w' = Some e'
    /\ trace w' = trace w ++ d
    /\ ((r = ssize_t (size_t (nbr - 0))
         /\ encode_run e (m_buffer w) d e' (m_buffer w'))
        \/ (r = -1
            /\ exists d0 pcm n size e0 b0 written,
                d = d0 ++ [LameOut (lame_encode_buffer_interleaved pcm n size)
                                   written]
                /\ encode_run e (m_buffer w) d0 e0 b0
                /\ lame_out (lame_encode_buffer_interleaved pcm n size) e0 b0
                   = (e', m_buffer w', written)
                /\ written < 0)).
Proof.
  induction fuel as [|fuel IH]; intros nbr s bl w e r w' He Hrun;
    [discriminate|].
  rewrite Encode_loop_S in Hrun. destruct (bl =? 0) eqn:Hz.
  - apply Z.eqb_eq in Hz. subst bl. inversion Hrun; subst; clear Hrun.
    exists e, []. rewrite app_nil_r. split; [exact He|].
    split; [reflexivity|]. left. split; [reflexivity|constructor].
  - destruct (lame_out (lame_encode_buffer_interleaved
                          s (Z.min (bl / bytes_per_frame) 4096)
                          sizeof_m_buffer) e (m_buffer w))
      as [[e1 b1] r1] eqn:Hout.
    destruct (Encode_pass_run s bl w e e1 b1 r1 He Hout)
      as [(Hr1 & w1 & Hp & He1 & Hb1 & Ht1)
         |(Hr1 & s1 & bl1 & w1 & Hp & He1 & Hb1 & Ht1)];
      rewrite Hp in Hrun.
    + inversion Hrun; subst r w'; clear Hrun.
      exists e1. eexists. split; [exact He1|]. split; [exact Ht1|].
      right. split; [reflexivity|].
      exists [], s, (Z.min (bl / bytes_per_frame) 4096), sizeof_m_buffer,
        e, (m_buffer w), r1.
      split; [reflexivity|]. split; [constructor|].
      split; [now rewrite Hb1|exact Hr1].
    + destruct (IH nbr s1 bl1 w1 e1 r w' He1 Hrun)
        as (e' & d & He' & Ht & Hcase).
      exists e'. eexists. split; [exact He'|].
      split; [rewrite Ht, Ht1, <- app_assoc; reflexivity|].
      rewrite Hb1 in Hcase.
      destruct Hcase as [(Hr & Hd)
                        |(Hr & d0 & pcm & n & size & e0 & b0 & wr
                          & Hd & Hd0 & Hlast & Hwr)].
      * left. split; [exact Hr|]. simpl. now apply run_cons with (e1 := e1).
      * right. split; [exact Hr|].
        exists ([LameOut (lame_encode_buffer_interleaved
                            s (Z.min (bl / bytes_per_frame) 4096)
                            sizeof_m_buffer) r1;
                 EvWrite b1 r1] ++ d0), pcm, n, size, e0, b0, wr.
        rewrite Hd. split; [reflexivity|].
        split; [simpl; now apply run_cons with (e1 := e1)|].
        split; [exact Hlast|exact Hwr].
Qed.

(** X3.  [Encode] leaves the object alone and talks to the outside in
    passes only.  When it returns, the audio position, the settings, the
    process state and the state of the handle are as before and nothing
    was sought.  Without a handle it returns -1 and has done nothing.
    With a handle, what it added to the trace is tied to its result.  If
    it returns the length of the input, that is a sequence of passes,
    each a call of the encoder, on the context and the buffer the pass
    before left, with a result r >= 0, followed at once by the write of r
    bytes of the buffer this call filled.  If it returns -1 after a
    failure, the passes are followed by the one call of the encoder whose
    result was negative, and that call is the last thing done: its
    context and buffer are those the object is left with. *)
Theorem Encode_effect fuel stream w r w' :
  Z.of_nat (List.length stream) < SIZE_MOD ->
  Encode fuel stream w = Some (r, w') ->
  live w' = live w
  /\ m_audio_pos w' = m_audio_pos w
  /\ m_preset w' = m_preset w
  /\ m_bitrate w' = m_bitrate w
  /\ libc w' = libc w
  /\ exists d,
      trace w' = trace w ++ d
      /\ filter is_seek d = []
      /\ match m_encoder w with
         | None => r = -1 /\ d = [] /\ w' = w
         | Some e =>
             exists e',
               m_encoder w' = Some e'
               /\ ((r = ssize_t (Z.of_nat (List.length stream))
                    /\ encode_run e (m_buffer w) d e' (m_buffer w'))
                   \/ (r = -1
                       /\ exists d0 pcm n size e0 b0 written,
                           d = d0
                               ++ [LameOut (lame_encode_buffer_interleaved
                                              pcm n size) written]
                           /\ encode_run e (m_buffer w) d0 e0 b0
                           /\ lame_out (lame_encode_buffer_interleaved
                                          pcm n size) e0 b0
                              = (e', m_buffer w', written)
                           /\ written < 0))
         end.
Proof.
  intros Hmax Hrun. unfold Encode in Hrun.
  destruct (m_encoder w) as [e|] eqn:He.
  - assert (Hl : live w = true) by (unfold live; now rewrite He).
    assert (Hr : 0 <= Z.of_nat (List.length stream) < SIZE_MOD) by lia.
    destruct (Encode_loop_effect _ _ _ _ _ _ _ Hl Hr Hrun)
      as (Hl' & Hpos & Hpre & Hbit & Hlibc & _).
    destruct (Encode_loop_run _ _ _ _ _ _ _ _ He Hrun)
      as (e' & d & He' & Ht & Hcase).
    repeat split; try congruence.
    exists d. split; [exact Ht|].
    rewrite Z.sub_0_r, size_t_small in Hcase by exact Hr.
    destruct Hcase as [(Hv & Hd)
                      |(Hv & d0 & pcm & n & size & e0 & b0 & wr
                        & Hd & Hd0 & Hlast & Hwr)].
    + split; [exact (encode_run_no_seek _ _ _ _ _ Hd)|].
      exists e'. split; [exact He'|]. left. now split.
    + split.
      * rewrite Hd, filter_app, (encode_run_no_seek _ _ _ _ _ Hd0).
        reflexivity.
      * exists e'. split; [exact He'|]. right. split; [exact Hv|].
        exists d0, pcm, n, size, e0, b0, wr. auto.
  - inversion Hrun; subst. repeat split.
    exists []. rewrite app_nil_r. repeat split.
Qed.

(** *** Batches *)

Lemma batches_0 : batches 0 = [].
Proof. reflexivity. Qed.

Lemma batches_step N :
  0 < N -> batches N = Z.min N 4096 :: batches (N - Z.min N 4096).
Proof.
  intros HN. unfold batches.
  destruct (Z_lt_le_dec N 4096) as [Hlt|Hge].
  - rewrite Z.min_l by lia. rewrite Z.sub_diag.
    rewrite Z.div_small, Z.mod_small by lia.
    destruct (N =? 0) eqn:E; [apply Z.eqb_eq in E; lia|reflexivity].
  - rewrite Z.min_r by lia.
    assert (Hd : N / 4096 = (N - 4096) / 4096 + 1).
    { replace N with ((N - 4096) + 1 * 4096) at 1 by lia.
      apply Z.div_add. lia. }
    assert (Hm : N mod 4096 = (N - 4096) mod 4096).
    { replace N with ((N - 4096) + 1 * 4096) at 1 by lia.
      apply Z.mod_add. lia. }
    assert (H0 : 0 <= (N - 4096) / 4096) by (apply Z.div_pos; lia).
    rewrite Hd, Hm, Z2Nat.inj_add by lia.
    rewrite Nat.add_comm. reflexivity.
Qed.

Lemma batches_sound k :
  Forall (fun n => 1 <= n <= 4096) (batches (Z.of_nat k))
  /\ fold_right Z.add 0 (batches (Z.of_nat k)) = Z.of_nat k.
Proof.
  induction k as [k IH] using lt_wf_ind.
  destruct k as [|k']; [split; [constructor|reflexivity]|].
  remember (S k') as k eqn:Ek.
  assert (Hk : 0 < Z.of_nat k) by lia.
  rewrite (batches_step _ Hk).
  remember (Z.min (Z.of_nat k) 4096) as f eqn:Ef.
  assert (Hf : 1 <= f <= Z.of_nat k /\ f <= 4096) by lia.
  replace (Z.of_nat k - f) with (Z.of_nat (k - Z.to_nat f)) by lia.
  destruct (IH (k - Z.to_nat f)%nat ltac:(lia)) as [HF Hsum].
  split.
  - constructor; [lia|exact HF].
  - simpl. rewrite Hsum. lia.
Qed.

Lemma encode_frames_app t1 t2 :
  encode_frames (t1 ++ t2) = encode_frames t1 ++ encode_frames t2.
Proof. unfold encode_frames. apply flat_map_app. Qed.

Lemma Encode_loop_batches k : forall nbr stream w,
  live w = true ->
  4 * Z.of_nat k < SIZE_MOD ->
  never_fails_from stream (4 * Z.of_nat k) w ->
  exists w',
    Encode_loop (S (List.length (batches (Z.of_nat k)))) nbr stream
                (4 * Z.of_nat k) w
    = Some (ssize_t (size_t (nbr - 0)), w')
    /\ encode_frames (trace w') =
         encode_frames (trace w) ++ batches (Z.of_nat k).
Proof.
  induction k as [k IH] using lt_wf_ind. intros nbr stream w Hl Hlt Hnf.
  destruct k as [|k'].
  - exists w. split; [reflexivity|]. simpl. now rewrite app_nil_r.
  - remember (S k') as k eqn:Ek.
    assert (Hk : 0 < Z.of_nat k) by lia.
    assert (Hnz : 4 * Z.of_nat k <> 0) by lia.
    pose proof (never_fails_head _ _ _ Hnf Hnz) as Hw.
    pose proof (Encode_pass_advanced _ _ _ Hw) as Hp. cbv zeta in Hp.
    rewrite frames_of_whole in Hp.
    remember (Z.min (Z.of_nat k) 4096) as frames eqn:Ef.
    assert (Hf : 1 <= frames <= Z.of_nat k) by lia.
    assert (Hbl : size_t (4 * Z.of_nat k - frames * bytes_per_frame)
                  = 4 * Z.of_nat (k - Z.to_nat frames)).
    { unfold bytes_per_frame. rewrite size_t_small; lia. }
    rewrite Hbl in Hp.
    pose proof (never_fails_step _ _ _ _ _ _ Hnf Hnz Hp) as Hnf'.
    destruct (Encode_pass_live _ _ _ _ _ _ Hl Hp)
      as (_ & _ & Hl1 & _ & _ & _ & _ & r & Hr & Ht1).
    rewrite frames_of_whole, <- Ef in Ht1.
    destruct (IH (k - Z.to_nat frames)%nat ltac:(lia) nbr _ _ Hl1
                 ltac:(lia) Hnf')
      as (w' & Hrun & Hfr).
    exists w'.
    rewrite (batches_step _ Hk), <- Ef.
    replace (Z.of_nat k - frames) with (Z.of_nat (k - Z.to_nat frames))
      by lia.
    split.
    + cbn [List.length]. rewrite Encode_loop_S.
      apply Z.eqb_neq in Hnz. rewrite Hnz, Hp. exact Hrun.
    + rewrite Hfr, Ht1, encode_frames_app. simpl.
      now rewrite <- app_assoc.
Qed.

(** X4.  An input of N whole frames, with a live handle and an encoder
    that reports no error, goes to the encoder in batches of 4096 frames
    followed, when N is not a multiple of 4096, by one smaller batch:
    the frame counts of the calls are exactly [batches N], and the loop
    ends after as many passes. *)
Theorem Encode_batches stream w N :
  live w = true ->
  Z.of_nat (List.length stream) = N * bytes_per_frame ->
  Z.of_nat (List.length stream) <= SSIZE_MAX ->
  encode_never_fails stream w ->
  exists w',
    Encode (S (List.length (batches N))) stream w
    = Some (N * bytes_per_frame, w')
    /\ encode_frames (trace w') = encode_frames (trace w) ++ batches N
    /\ Forall (fun n => 1 <= n <= 4096) (batches N)
    /\ fold_right Z.add 0 (batches N) = N.
Proof.
  intros Hl Hlen Hmax Hnf. destruct (live_handle w Hl) as [e He].
  unfold Encode, encode_never_fails in *. rewrite He.
  remember (Z.of_nat (List.length stream)) as len eqn:Elen.
  assert (HN : 0 <= N) by (unfold bytes_per_frame in Hlen; lia).
  assert (Hk : N = Z.of_nat (Z.to_nat N)) by lia.
  assert (H4 : len = 4 * Z.of_nat (Z.to_nat N))
    by (unfold bytes_per_frame in Hlen; lia).
  rewrite H4 in Hnf.
  destruct (Encode_loop_batches (Z.to_nat N) len stream w Hl
              ltac:(unfold SSIZE_MAX, SIZE_MOD in *; lia) Hnf)
    as (w' & Hrun & Hfr).
  rewrite <- Hk in Hfr. rewrite <- Hk in Hrun at 1. rewrite <- H4 in Hrun.
  exists w'. rewrite Hrun.
  split; [|split; [exact Hfr|]].
  - f_equal. f_equal.
    rewrite Z.sub_0_r, size_t_small, ssize_t_small;
      unfold SSIZE_MAX, SIZE_MOD, bytes_per_frame in *; lia.
  - rewrite Hk. apply batches_sound.
Qed.

End EncodeInvariants.

(** ** The layout of the buffer of [ToUtf16] *)

Section ToUtf16Layout.

Context {enc os : Type} {sys : Libc os}.

Implicit Types (w : World enc os).

Lemma store_units_nil dst pos : store_units dst pos [] = dst.
Proof.
  revert pos. induction dst as [|d dst IH]; intros [|pos]; simpl;
    try reflexivity. now rewrite IH.
Qed.

Lemma store_units_0 us : forall dst,
  (List.length us <= List.length dst)%nat ->
  store_units dst 0 us = us ++ skipn (List.length us) dst.
Proof.
  induction us as [|u us IH]; intros dst Hlen.
  - now rewrite store_units_nil.
  - destruct dst as [|d dst]; simpl in *; [lia|].
    rewrite IH by lia. reflexivity.
Qed.

Lemma skipn_repeat (a : Z) k m : skipn k (repeat a m) = repeat a (m - k).
Proof.
  revert m. induction k as [|k IH]; intros [|m]; simpl; try reflexivity.
  apply IH.
Qed.

(** X10.  For a string whose buffer size does not overflow [size_t], the
    block [ToUtf16] asks for has 4 * (strlen + 1) + 4 elements of 4
    bytes.  When [calloc] refuses it, the result is null and no
    conversion is opened.  When [calloc] grants it, the result holds
    2 * (4 * (strlen + 1) + 4) units: the byte-order mark, then what
    [iconv] stored (nothing if [iconv_open] failed), then zeros only, at
    least one, so the text is always terminated, provided [iconv] keeps
    to the room it was given. *)
Theorem ToUtf16_layout s w :
  let n := (strlen s + 1) * 4 in
  let block := calloc (n + 4) 4 (libc w) in
  let us := if snd (iconv_open "UTF-16LE//TRANSLIT" "UTF-8" (fst block))
            then iconv (list_byte_of_string s) n else [] in
  n + 4 < SIZE_MOD ->
  2 * Z.of_nat (List.length (iconv (list_byte_of_string s) n)) <= n ->
  (snd block = false ->
   fst (ToUtf16 (Some s) w) = None
   /\ trace (snd (ToUtf16 (Some s) w)) = trace w ++ [EvCalloc (n + 4) 4 false])
  /\ (snd block = true ->
      exists k,
        fst (ToUtf16 (Some s) w) = Some (BOM :: us ++ repeat 0 k)
        /\ (1 <= k)%nat
        /\ Z.of_nat (List.length (BOM :: us ++ repeat 0 k)) = 2 * (n + 4)).
Proof.
  intros n block us.
  assert (En : n = (strlen s + 1) * 4) by reflexivity.
  assert (Eb : block = calloc (n + 4) 4 (libc w)) by reflexivity.
  assert (Eu : us = if snd (iconv_open "UTF-16LE//TRANSLIT" "UTF-8"
                              (fst block))
                    then iconv (list_byte_of_string s) n else [])
    by reflexivity.
  clearbody us block n. intros Hn Hiconv.
  assert (Hl : 0 <= strlen s) by (unfold strlen; lia).
  assert (Hn1 : size_t ((strlen s + 1) * 4) = n).
  { rewrite <- En. apply size_t_small. lia. }
  assert (Hn2 : size_t (n + 4) = n + 4) by (apply size_t_small; lia).
  unfold ToUtf16, bind, sys_calloc, sys_iconv_open, sys_iconv,
    sys_iconv_close, ret, with_libc, record.
  rewrite Hn1, Hn2, <- Eb.
  destruct block as [o1 ok]. cbn [fst snd] in *.
  split; intros ->; [now split|].
  cbn [libc trace].
  assert (Hm : Z.to_nat (2 * (n + 4)) = S (Z.to_nat (2 * (n + 4) - 1)))
    by lia.
  rewrite Hm. cbn [repeat store_units].
  rewrite store_units_nil.
  assert (Hus : (List.length us <= Z.to_nat (2 * (n + 4) - 1))%nat).
  { rewrite Eu. destruct (snd (iconv_open _ _ _)); cbn [List.length]; lia. }
  exists (Z.to_nat (2 * (n + 4) - 1) - List.length us)%nat.
  destruct (iconv_open "UTF-16LE//TRANSLIT" "UTF-8" o1) as [o2 opened].
  cbn [fst snd] in *.
  assert (Hus2 : 2 * Z.of_nat (List.length us) <= n).
  { rewrite Eu. destruct opened; [exact Hiconv|cbn [List.length]; lia]. }
  split; [|split].
  - destruct opened; cbn [fst snd libc trace store_units]; f_equal; f_equal.
    + rewrite <- Eu.
      rewrite store_units_0 by (rewrite repeat_length; exact Hus).
      now rewrite skipn_repeat.
    + rewrite Eu. simpl. now rewrite Nat.sub_0_r.
  - lia.
  - cbn [List.length]. rewrite length_app, repeat_length. lia.
Qed.

End ToUtf16Layout.

(** ** A whole session: construction, [Start], [Encode], [Finish] *)

Section SessionFacts.

Context {enc os : Type} {lame : Lame enc} {sys : Libc os}.

Variable GetSettingInt : string -> Z.

Implicit Types (w : World enc os).

Lemma filter_nil_not_in (f : event -> bool) t ev :
  filter f t = [] -> f ev = true -> ~ In ev t.
Proof.
  intros Hf Hev Hin.
  assert (H : In ev (filter f t)) by (apply filter_In; now split).
  now rewrite Hf in H.
Qed.

Lemma sink_no_seek t : sink_events t = [] -> filter is_seek t = [].
Proof.
  unfold sink_events. induction t as [|ev t IH]; simpl; [trivial|].
  destruct ev; simpl; try discriminate; auto.
Qed.

(** X11.  A [Finish] that gets past the flush makes three calls into
    LAME, each on the context and the buffer the call before left: the
    flush, the fetch of the ID3v1 tag and the fetch of the summary frame.
    To the sink it sends, in this order: the buffer the flush filled with
    the length the flush returned (always, also when that is zero); the
    buffer and the length of the ID3v1 tag, if that length is positive;
    and, if the audio position is not zero and the length of the summary
    frame is positive, the seek to the audio position followed by the
    buffer and the length of the summary frame.  It returns [true] and
    keeps the recorded audio position; the handle and the buffer are
    those the last call left. *)
Theorem Finish_sink_view w e :
  m_encoder w = Some e ->
  let flush :=
    lame_out (lame_encode_flush sizeof_m_buffer) e (m_buffer w) in
  let v1 :=
    lame_out (lame_get_id3v1_tag sizeof_m_buffer)
             (fst (fst flush)) (snd (fst flush)) in
  let xing :=
    lame_out (lame_get_lametag_frame sizeof_m_buffer)
             (fst (fst v1)) (snd (fst v1)) in
  0 <= snd flush ->
  let w' := snd (Finish w) in
  fst (Finish w) = true
  /\ sink_events (trace w') =
       sink_events (trace w)
       ++ EvWrite (snd (fst flush)) (snd flush)
          :: (if 0 <? int (snd v1)
              then [EvWrite (snd (fst v1)) (int (snd v1))] else [])
          ++ (if negb (m_audio_pos w =? 0) && (0 <? int (snd xing))
              then [EvSeek (m_audio_pos w) SEEK_SET;
                    EvWrite (snd (fst xing)) (int (snd xing))]
              else [])
  /\ m_audio_pos w' = m_audio_pos w
  /\ m_encoder w' = Some (fst (fst xing))
  /\ m_buffer w' = snd (fst xing).
Proof.
  intros He flush v1 xing Hflush w'. subst w' xing v1 flush.
  pose proof (Finish_live w e He) as HF.
  destruct (lame_out (lame_encode_flush sizeof_m_buffer) e (m_buffer w))
    as [[e1 b1] r1].
  cbn [fst snd] in Hflush |- *.
  destruct (lame_out (lame_get_id3v1_tag sizeof_m_buffer) e1 b1)
    as [[e2 b2] r2].
  cbn [fst snd].
  destruct (lame_out (lame_get_lametag_frame sizeof_m_buffer) e2 b2)
    as [[e3 b3] r3].
  cbn [fst snd].
  apply Z.ltb_ge in Hflush. rewrite Hflush in HF.
  rewrite HF. cbn [snd trace m_audio_pos m_encoder m_buffer fst].
  split; [reflexivity|]. split; [|repeat split].
  rewrite !sink_events_app.
  destruct (0 <? int r2);
    destruct (negb (m_audio_pos w =? 0) && (0 <? int r3)); reflexivity.
Qed.

(** [Start] returns [true] only with a live handle and the accepted
    format. *)
Lemma Start_true_inv tag w w1 :
  Start GetSettingInt tag w = (true, w1) ->
  live w = true /\ GetChannels tag = 2 /\ GetBitsPerSample tag = 16.
Proof.
  intros Hrun. destruct (live w) eqn:Hl.
  - destruct (Z.eq_dec (GetChannels tag) 2) as [Hch|Hch];
      [destruct (Z.eq_dec (GetBitsPerSample tag) 16) as [Hb|Hb]|].
    + auto.
    + destruct (Start_rejects_format_aux GetSettingInt tag w Hl (or_intror Hb))
        as (w' & Hrun' & _). congruence.
    + destruct (Start_rejects_format_aux GetSettingInt tag w Hl (or_introl Hch))
        as (w' & Hrun' & _). congruence.
  - unfold live in Hl. unfold Start, bind, get in Hrun.
    destruct (m_encoder w); discriminate.
Qed.

(** X12.  The summary frame lands at the offset [Start] recorded.  In a
    session on a new object ([m_audio_pos] zero, nothing sent to the sink
    yet) that runs a successful [Start], an [Encode] that returns and a
    [Finish], every seek goes, from the start of the file, to the audio
    position [Start] recorded, which is not zero and lies in the range of
    [int].  The first write the sink received is the write of the tag by
    [Start], of the buffer [Start] left and of that position converted to
    [size_t] bytes: when the position is positive the seek goes right
    behind the tag; when it is negative the write was asked for 2^64 plus
    that position bytes. *)
Theorem Session_patch_offset tag fuel stream w w1 r w2 ok w3 p whence :
  m_audio_pos w = 0 ->
  sink_events (trace w) = [] ->
  Start GetSettingInt tag w = (true, w1) ->
  Z.of_nat (List.length stream) < SIZE_MOD ->
  Encode fuel stream w1 = Some (r, w2) ->
  Finish w2 = (ok, w3) ->
  In (EvSeek p whence) (trace w3) ->
  whence = SEEK_SET
  /\ p <> 0
  /\ - 2 ^ 31 <= p < 2 ^ 31
  /\ p = m_audio_pos w1
  /\ (exists rest,
        sink_events (trace w3) = EvWrite (m_buffer w1) (size_t p) :: rest)
  /\ (0 < p -> size_t p = p)
  /\ (p < 0 -> size_t p = 2 ^ 64 + p).
Proof.
  intros Hpos0 Hfresh Hstart Hmax Henc Hfin Hin.
  destruct (Start_true_inv tag w w1 Hstart) as (Hl & Hch & Hbits).
  destruct (Start_accepted GetSettingInt tag w Hl Hch Hbits)
    as (d & r0 & Hd & Hl1 & Hcase).
  rewrite Hstart in Hl1, Hcase. cbn [fst snd] in Hl1, Hcase.
  destruct Hcase as [(_ & Hf & _)|(_ & _ & size & Ht1 & Hp1)];
    [discriminate|].
  (* Encode *)
  destruct (live_handle w1 Hl1) as [e1 He1].
  unfold Encode in Henc. rewrite He1 in Henc.
  destruct (Encode_loop_effect _ _ _ _ _ _ _ Hl1
              ltac:(split; [apply Nat2Z.is_nonneg|exact Hmax]) Henc)
    as (Hl2 & Hp2 & _ & _ & _ & dE & Ht2 & HcaseE).
  assert (HseekE : filter is_seek dE = []).
  { destruct HcaseE as [(_ & _ & Hp)|(_ & d0 & op & wr & HdE & Hp & _ & _)].
    - now apply encode_pairs_no_seek.
    - rewrite HdE, filter_app, (encode_pairs_no_seek _ Hp). reflexivity. }
  (* Finish *)
  destruct (live_handle w2 Hl2) as [e2 He2].
  pose proof (Finish_live w2 e2 He2) as HF.
  destruct (lame_out (lame_encode_flush sizeof_m_buffer) e2 (m_buffer w2))
    as [[e3 b3] r3].
  destruct (lame_out (lame_get_id3v1_tag sizeof_m_buffer) e3 b3)
    as [[e4 b4] r4].
  destruct (lame_out (lame_get_lametag_frame sizeof_m_buffer) e4 b4)
    as [[e5 b5] r5].
  rewrite Hfin in HF.
  assert (Hno : ~ In (EvSeek p whence) (trace w2)).
  { rewrite Ht2, Ht1. intros H.
    repeat (apply in_app_or in H; destruct H as [H|H]).
    - revert H. apply filter_nil_not_in with (f := is_seek);
        [now apply sink_no_seek|reflexivity].
    - revert H. apply filter_nil_not_in with (f := is_seek);
        [now apply sink_no_seek|reflexivity].
    - destruct H as [H|[H|[]]]; discriminate.
    - destruct (int size =? 0); [contradiction|].
      destruct H as [H|[]]; discriminate.
    - revert H. apply filter_nil_not_in with (f := is_seek);
        [exact HseekE|reflexivity]. }
  destruct (r3 <? 0).
  { inversion HF; subst. cbn [trace] in Hin.
    apply in_app_or in Hin. destruct Hin as [Hin|[Hin|[]]];
      [contradiction|discriminate]. }
  inversion HF; subst ok w3; clear HF. cbn [trace] in Hin |- *.
  apply in_app_or in Hin. destruct Hin as [Hin|Hin]; [contradiction|].
  cbn [app] in Hin.
  destruct Hin as [Hin|[Hin|[Hin|Hin]]]; try discriminate.
  apply in_app_or in Hin. destruct Hin as [Hin|Hin].
  { destruct (0 <? int r4); [|contradiction].
    destruct Hin as [H|[]]; discriminate. }
  destruct Hin as [Hin|Hin]; [discriminate|].
  destruct (m_audio_pos w2 =? 0) eqn:Hz; [contradiction|].
  apply Z.eqb_neq in Hz.
  destruct (0 <? int r5); [|contradiction].
  destruct Hin as [Hin|[Hin|[]]]; [|discriminate].
  inversion Hin; subst p whence.
  rewrite Hp2 in *. split; [reflexivity|]. split; [exact Hz|].
  assert (Hrange : - 2 ^ 31 <= m_audio_pos w1 < 2 ^ 31).
  { rewrite Hp1. destruct (int size =? 0); [rewrite Hpos0; lia|].
    unfold int. pose proof (Z.mod_pos_bound (size + 2 ^ 31) (2 ^ 32)). lia. }
  split; [exact Hrange|]. split; [reflexivity|].
  split; [|split].
  - rewrite Hp1, Hpos0 in Hz |- *.
    destruct (int size =? 0) eqn:Hs; [contradiction|].
    rewrite Ht2, Ht1, !sink_events_app, Hfresh, Hd. cbn [app].
    eexists. reflexivity.
  - intros Hpos. apply size_t_small. unfold SIZE_MOD. lia.
  - intros Hneg. unfold size_t, SIZE_MOD.
    rewrite <- (Z.mod_add _ 1) by lia. rewrite Z.mod_small; lia.
Qed.

(** X13.  [CreateInstance] reports success also when [lame_init] has
    failed.  The object it then hands out only has the error in the log,
    and stays inert: [Start] and [Finish] return [false], [Encode]
    returns -1 on any input, and none of them changes anything. *)
Theorem dead_instance_is_inert buf0 (os0 : os) tag :
  lame_init = None ->
  let w := snd (CreateInstance GetSettingInt buf0 os0) in
  fst (CreateInstance GetSettingInt buf0 os0) = ADDON_STATUS_OK
  /\ trace w =
       [EvLog ADDON_LOG_ERROR "Failed to construct lame stream encoder"]
  /\ m_bitrate w = None
  /\ Start GetSettingInt tag w = (false, w)
  /\ (forall fuel stream, Encode fuel stream w = Some (-1, w))
  /\ Finish w = (false, w).
Proof.
  intros Hinit w. subst w.
  unfold CreateInstance, CEncoderLame_new. rewrite Hinit.
  cbn [fst snd]. unfold Log, emit, record. cbn [snd trace m_bitrate app].
  repeat split.
Qed.

(** X14.  With a live LAME context the constructor makes exactly three
    calls: one that selects the quality, then the two that switch on the
    MMX and SSE code.  The preset setting wins over the bit rate: for the
    settings 0, 1 and 2 it is [lame_set_preset] with MEDIUM, STANDARD or
    EXTREME and no bit rate is set; for any other setting it is
    [lame_set_brate] with 128 + 32 * bitrate.  The audio position starts
    at zero. *)
Theorem CEncoderLame_new_configures buf0 (os0 : os) e :
  lame_init = Some e ->
  MEDIUM <> -1 -> STANDARD <> -1 -> EXTREME <> -1 ->
  let w := CEncoderLame_new GetSettingInt buf0 os0 in
  let preset := GetSettingInt "preset" in
  let bitrate := int (128 + 32 * GetSettingInt "bitrate") in
  let quality :=
    if preset =? 0 then lame_set_preset MEDIUM
    else if preset =? 1 then lame_set_preset STANDARD
    else if preset =? 2 then lame_set_preset EXTREME
    else lame_set_brate bitrate in
  live w = true
  /\ m_audio_pos w = 0
  /\ m_bitrate w = Some bitrate
  /\ m_buffer w = buf0
  /\ libc w = os0
  /\ exists r1 r2 r3,
      trace w = [LameCtl quality r1;
                 LameCtl (lame_set_asm_optimizations MMX 1) r2;
                 LameCtl (lame_set_asm_optimizations SSE 1) r3].
Proof.
  intros Hinit HM HS HE w preset bitrate quality.
  subst w quality preset bitrate. unfold CEncoderLame_new. rewrite Hinit.
  remember (GetSettingInt "preset") as pv eqn:Epv.
  remember (int (128 + 32 * GetSettingInt "bitrate")) as bv eqn:Ebv.
  apply Z.eqb_neq in HM, HS, HE.
  unfold bind, set_preset, set_bitrate, get, ctl, ret.
  destruct (pv =? 0); [|destruct (pv =? 1); [|destruct (pv =? 2)]];
    simpl; rewrite ?HM, ?HS, ?HE; simpl;
    repeat match goal with
           | |- context [lame_ctl ?op ?x] =>
               destruct (lame_ctl op x) as [? ?]; simpl
           end;
    repeat split; do 3 eexists; reflexivity.
Qed.

End SessionFacts.

(** ** The add-on run on the stand-ins *)

Import Demo.

Lemma demo_never_fails stream bl (w : World nat nat) :
  never_fails_from (lame := demo_lame None) stream bl w.
Proof.
  intros n s b wn _ _. unfold Encode_written, out.
  destruct (m_encoder wn); simpl; lia.
Qed.

(** C1, at the failing input.  Five bytes, one frame and one byte of the
    next, go to a session with a live handle whose encoder never reports
    an error.  [Encode] is expected to return 4; the loop never
    ends instead: after the first pass one byte is left, every further
    pass takes zero frames and leaves [bytes_left] at 1, and no amount of
    fuel yields a return value. *)
Theorem Encode_partial_frame_never_returns :
  forall fuel,
    Encode (lame := demo_lame None) fuel (pcm 5) (session 0) = None.
Proof.
  apply Encode_partial_frame_diverges.
  - reflexivity.
  - discriminate.
  - apply demo_never_fails.
Qed.

(** C2 as stated fails on the empty input: N = 0 meets every condition of
    the claim, and [Encode] returns 0, but no run of it makes a pass
    through the loop. *)
Lemma Encode_empty_input_no_pass :
  let stream := pcm 0 in
  let w := session 0 in
  (live w = true
   /\ Z.of_nat (List.length stream) = 0 * bytes_per_frame
   /\ 0 <= 4096
   /\ encode_never_fails (lame := demo_lame None) stream w)
  /\ ~ (exists fuel r w',
          Encode (lame := demo_lame None) fuel stream w = Some (r, w')
          /\ encode_calls (trace w') = S (encode_calls (trace w))).
Proof.
  cbv zeta. split.
  - repeat split; try reflexivity; try lia. apply demo_never_fails.
  - intros (fuel & r & w' & Hrun & Hcalls).
    destruct fuel as [|fuel]; [discriminate|].
    simpl in Hrun. inversion Hrun; subst. discriminate.
Defined.

(** Two frames in one pass. *)
Lemma Encode_single_batch_witness :
  exists w' written,
    Encode (lame := demo_lame None) 2 (pcm 8) (session 0) = Some (8, w')
    /\ Encode (lame := demo_lame None) 1 (pcm 8) (session 0) = None
    /\ trace w' =
         [LameOut (lame_encode_buffer_interleaved (pcm 8) 2 sizeof_m_buffer)
            written;
          EvWrite (m_buffer w') written]
    /\ encode_calls (trace w') = 1%nat.
Proof.
  refine (proj2 (Encode_single_batch (lame := demo_lame None)
                   (pcm 8) (session 0) 2 _ _ _) _ _).
  - reflexivity.
  - reflexivity.
  - lia.
  - lia.
  - vm_compute. discriminate.
Defined.

(** Three frames are consumed whole. *)
Lemma Encode_whole_frames_witness :
  exists fuel w',
    Encode (lame := demo_lame None) fuel (pcm 12) (session 0)
    = Some (12, w').
Proof.
  refine (Encode_whole_frames (lame := demo_lame None)
            (pcm 12) (session 0) _ _ _ _).
  - reflexivity.
  - reflexivity.
  - vm_compute. discriminate.
  - apply demo_never_fails.
Defined.



(** The null pointer and the empty string. *)
Lemma ToUtf16_null_and_empty_witness :
  ToUtf16 (sys := demo_libc) None (session 0) = (None, session 0)
  /\ exists dst w',
      ToUtf16 (sys := demo_libc) (Some EmptyString) (session 0)
      = (Some dst, w')
      /\ List.length dst = 16%nat
      /\ nth 0 dst 0 = 0xFEFF
      /\ nth 1 dst 1 = 0
      /\ firstn 4 (le_bytes dst) = [0xFF; 0xFE; 0; 0]
      /\ filter is_calloc (trace w') = [EvCalloc 8 4 true].
Proof.
  split.
  - exact (proj1 (ToUtf16_null_and_empty (sys := demo_libc) (session 0))).
  - exact (proj2 (ToUtf16_null_and_empty (sys := demo_libc) (session 0))
             eq_refl eq_refl).
Defined.

(** A mono tag is refused. *)
Lemma Start_rejects_format_witness :
  exists w',
    Start (lame := demo_lame None) (sys := demo_libc) (settings 1)
      mono16 (session 0) = (false, w')
    /\ trace w' = [EvLog ADDON_LOG_ERROR "Invalid input format to encode"]
    /\ sink_events (trace w') = []
    /\ m_audio_pos w' = 0
    /\ m_encoder w' = Some 0%nat
    /\ m_buffer w' = [].
Proof.
  refine (Start_rejects_format (lame := demo_lame None) (sys := demo_libc)
            (settings 1) mono16 (session 0) _ _).
  - reflexivity.
  - left. discriminate.
Defined.





(** *** Further runs *)

(** Two frames are consumed whole. *)
Lemma Encode_all_or_nothing_witness :
  8 = -1 \/ (8 = Z.of_nat (List.length (pcm 8))
             /\ Z.of_nat (List.length (pcm 8)) mod bytes_per_frame = 0).
Proof.
  eapply (Encode_all_or_nothing (lame := demo_lame None)
            2 (pcm 8) (session 0) 8).
  - vm_compute. discriminate.
  - reflexivity.
Defined.

(** After two passes over nine bytes one byte is left. *)
Lemma Encode_calls_in_bounds_witness :
  exists s bl wn,
    Encode_passes (lame := demo_lame None) 2 (pcm 9) 9 (session 0)
    = Some (s, bl, wn)
    /\ bl = Z.of_nat (List.length s)
    /\ s = skipn (Z.to_nat (9 - bl)) (pcm 9)
    /\ (9 - bl) mod bytes_per_frame = 0.
Proof.
  do 3 eexists. split; [reflexivity|].
  pose proof (Encode_calls_in_bounds (lame := demo_lame None)
                2 (pcm 9) (session 0) _ _ _
                eq_refl ltac:(vm_compute; reflexivity) eq_refl) as H.
  destruct H as (H1 & H2 & H3 & _).
  split; [exact H1|]. split; [exact H2|exact H3].
Defined.

(** An encoder that fails in its second pass. *)
Lemma Encode_effect_witness :
  exists r w',
    Encode (lame := demo_lame (Some 1%nat)) 3 (pcm (Z.to_nat 16388))
           (session 7) = Some (r, w')
    /\ live w' = true
    /\ m_audio_pos w' = 7
    /\ m_preset w' = -1
    /\ m_bitrate w' = Some 128
    /\ libc w' = 8%nat.
Proof.
  do 2 eexists. split; [vm_compute; reflexivity|].
  pose proof (Encode_effect (lame := demo_lame (Some 1%nat))
                3 (pcm (Z.to_nat 16388)) (session 7) _ _
                ltac:(vm_compute; reflexivity)
                ltac:(vm_compute; reflexivity)) as H.
  destruct H as (H1 & H2 & H3 & H4 & H5 & _).
  repeat split; assumption.
Defined.

(** 5000 frames go to the encoder as 4096 and 904. *)
Lemma Encode_batches_witness :
  exists w',
    Encode (lame := demo_lame None) 3 (pcm (Z.to_nat 20000)) (session 0)
    = Some (20000, w')
    /\ encode_frames (trace w') = [4096; 904]
    /\ Forall (fun n => 1 <= n <= 4096) [4096; 904]
    /\ fold_right Z.add 0 [4096; 904] = 5000.
Proof.
  refine (Encode_batches (lame := demo_lame None)
            (pcm (Z.to_nat 20000)) (session 0) 5000 _ _ _ _).
  - reflexivity.
  - vm_compute. reflexivity.
  - vm_compute. discriminate.
  - apply demo_never_fails.
Defined.

(** The stand-in accepts every parameter set, so [Start] succeeds. *)
Lemma Start_init_params_decides_witness :
  exists d r after,
    trace (snd (Start (lame := demo_lame None) (sys := demo_libc)
                  (settings 2) (stereo16 "Rock") (session 0))) =
      d ++ LameCtl lame_init_params r :: after
    /\ sink_events d = []
    /\ (true = true <-> 0 <= r)
    /\ (r < 0 -> after = [] /\ 4 = 0).
Proof.
  refine (Start_init_params_decides (lame := demo_lame None)
            (sys := demo_libc) (settings 2) (stereo16 "Rock") (session 0)
            _ _ _); reflexivity.
Defined.

(** A mono tag on a session that has written before. *)
Lemma Start_failure_is_silent_witness :
  sink_events
    (trace (snd (Start (lame := demo_lame None) (sys := demo_libc)
                   (settings 1) mono16 (session 5)))) = []
  /\ m_audio_pos (snd (Start (lame := demo_lame None) (sys := demo_libc)
                         (settings 1) mono16 (session 5))) = 5.
Proof.
  eapply (Start_failure_is_silent (lame := demo_lame None) (sys := demo_libc)
            (settings 1) mono16 (session 5)).
  reflexivity.
Defined.

(** The ID3v1 tag needs no wide text. *)
Lemma Start_legacy_no_libc_witness :
  exists d,
    trace (snd (Start (lame := demo_lame None) (sys := demo_libc)
                  (settings 1) (stereo16 "Rock") (session 0))) = d
    /\ filter is_libc d = [].
Proof.
  refine (Start_legacy_no_libc (lame := demo_lame None) (sys := demo_libc)
            (settings 1) (stereo16 "Rock") (session 0) _).
  discriminate.
Defined.

(** The nine frames of the ID3v2 tag. *)
Lemma Start_v2_frames_witness :
  exists d,
    trace (snd (Start (lame := demo_lame None) (sys := demo_libc)
                  (settings 2) (stereo16 "Rock") (session 0))) = d
    /\ flat_map frame_of d =
         [TextFrame "TPE1"; TextFrame "TIT2"; TextFrame "TPE1";
          TextFrame "TPE2"; TextFrame "TALB"; TextFrame "TYER";
          TextFrame "TRCK"; TextFrame "TCON"; CommentFrame].
Proof.
  refine (Start_v2_frames (lame := demo_lame None) (sys := demo_libc)
            (settings 2) (stereo16 "Rock") (session 0) _ _ _ _);
    reflexivity.
Defined.

(** Two characters: 32 units, the mark, two units of text, 29 zeros. *)
Lemma ToUtf16_layout_witness :
  exists k,
    fst (ToUtf16 (sys := demo_libc) (Some "Hi"%string) (session 0))
    = Some (BOM :: [72; 105] ++ repeat 0 k)
    /\ (1 <= k)%nat
    /\ Z.of_nat (List.length (BOM :: [72; 105] ++ repeat 0 k)) = 32.
Proof.
  refine (proj2 (ToUtf16_layout (sys := demo_libc) "Hi"%string (session 0)
                   _ _) _).
  - vm_compute. reflexivity.
  - vm_compute. discriminate.
  - reflexivity.
Defined.

(** The three parts of the end of a file. *)
Lemma Finish_sink_view_witness :
  let w' := snd (Finish (lame := demo_lame None) (session 4)) in
  fst (Finish (lame := demo_lame None) (session 4)) = true
  /\ sink_events (trace w') =
       [EvWrite [Byte.xff] 1;
        EvWrite [Byte.x54; Byte.x41; Byte.x47] 3;
        EvSeek 4 SEEK_SET;
        EvWrite [Byte.x58; Byte.x69] 2]
  /\ m_audio_pos w' = 4
  /\ m_encoder w' = Some 0%nat
  /\ m_buffer w' = [Byte.x58; Byte.x69].
Proof.
  refine (Finish_sink_view (lame := demo_lame None) (session 4) 0%nat _ _).
  - reflexivity.
  - vm_compute. discriminate.
Defined.

(** A whole session on a new object: the tag takes four bytes, and the
    summary frame is written at offset 4. *)
Lemma Session_patch_offset_witness :
  let w1 := snd (Start (lame := demo_lame None) (sys := demo_libc)
                   (settings 2) (stereo16 "Rock") (new_session 2)) in
  let w2 := match Encode (lame := demo_lame None) 2 (pcm 8) w1 with
            | Some (_, w) => w
            | None => w1
            end in
  let w3 := snd (Finish (lame := demo_lame None) w2) in
  SEEK_SET = SEEK_SET
  /\ 4 <> 0
  /\ - 2 ^ 31 <= 4 < 2 ^ 31
  /\ 4 = m_audio_pos w1
  /\ (exists rest,
        sink_events (trace w3) = EvWrite (m_buffer w1) (size_t 4) :: rest)
  /\ (0 < 4 -> size_t 4 = 4)
  /\ (4 < 0 -> size_t 4 = 2 ^ 64 + 4).
Proof.
  cbv zeta.
  eapply (Session_patch_offset (lame := demo_lame None) (sys := demo_libc)
            (settings 2) (stereo16 "Rock") 2 (pcm 8) (new_session 2)).
  - reflexivity.
  - reflexivity.
  - vm_compute. reflexivity.
  - vm_compute. reflexivity.
  - vm_compute. reflexivity.
  - vm_compute. reflexivity.
  - vm_compute. repeat (first [left; reflexivity|right]).
Defined.

(** An add-on whose LAME library cannot be initialised. *)
Lemma dead_instance_is_inert_witness :
  let w := snd (CreateInstance (lame := dead_lame) (settings 1) [] 9%nat) in
  fst (CreateInstance (lame := dead_lame) (settings 1) [] 9%nat)
  = ADDON_STATUS_OK
  /\ trace w =
       [EvLog ADDON_LOG_ERROR "Failed to construct lame stream encoder"]
  /\ m_bitrate w = None
  /\ Start (lame := dead_lame) (sys := demo_libc) (settings 1)
        (stereo16 "Rock") w = (false, w)
  /\ (forall fuel stream,
        Encode (lame := dead_lame) fuel stream w = Some (-1, w))
  /\ Finish (lame := dead_lame) w = (false, w).
Proof.
  refine (dead_instance_is_inert (lame := dead_lame) (sys := demo_libc)
            (settings 1) [] 9%nat (stereo16 "Rock") _).
  reflexivity.
Defined.

(** The preset setting 1 selects STANDARD. *)
Lemma CEncoderLame_new_configures_witness :
  let w := CEncoderLame_new (lame := demo_lame None)
             (fun name => if String.eqb name "preset" then 1 else 2)
             [] 9%nat in
  live w = true
  /\ m_audio_pos w = 0
  /\ m_bitrate w = Some 192
  /\ m_buffer w = []
  /\ libc w = 9%nat
  /\ exists r1 r2 r3,
      trace w = [LameCtl (lame_set_preset 1001) r1;
                 LameCtl (lame_set_asm_optimizations 1 1) r2;
                 LameCtl (lame_set_asm_optimizations 3 1) r3].
Proof.
  refine (CEncoderLame_new_configures (lame := demo_lame None)
            (fun name => if String.eqb name "preset" then 1 else 2)
            [] 9%nat O _ _ _ _).
  - reflexivity.
  - discriminate.
  - discriminate.
  - discriminate.
Defined.
